(** * insights-operator: record collection and cluster-config gathering

    A shallow embedding of [pkg/record/interface.go] and
    [pkg/gather/clusterconfig/clusterconfig.go], followed by the properties
    proved about them.

    Conventions.
    - Go [string] is a sequence of bytes: [string] here, whose characters are
      8-bit [ascii]; [len(s)] is [String.length s].
    - Go [int], [time.Duration] and [time.Time] readings are [Z].
    - Go [error] values are the inductive [error]; [nil] is [None].
    - Go maps with string keys are [gmap string _]; slices are lists.
    - Calls that leave the package (the clock, the context, the recorder, the
      gather functions) run in the monad [M], which threads the state of the
      outside world and writes down every call together with what it
      returned.
    - Logging through [klog] has no effect on what the functions return and
      is left out. *)

From Stdlib Require Import ZArith String Ascii List Lia Bool.
From stdpp Require Import base option list strings pretty gmap fin_maps sorting.

Local Open Scope string_scope.
Local Open Scope list_scope.
Local Open Scope Z_scope.

(** ** Errors *)

(** [k8s.io/apimachinery/pkg/apis/meta/v1.StatusReason] *)
Definition StatusReason := string.
Definition StatusReasonNotFound : StatusReason := "NotFound".

(** The error values that reach this code: the two errors of package
    [context], the API status errors of the clients, and plain message errors
    ([errors.New], [fmt.Errorf] without wrapping). *)
Inductive error : Type :=
| Canceled
| DeadlineExceeded
| StatusError (reason : StatusReason) (message : string)
| errorString (s : string).

(** [err.Error()] *)
Definition Error (e : error) : string :=
  match e with
  | Canceled => "context canceled"
  | DeadlineExceeded => "context deadline exceeded"
  | StatusError _ message => message
  | errorString s => s
  end.

(** [errors.IsNotFound(err)]; [false] on [nil]. *)
Definition IsNotFound (err : option error) : bool :=
  match err with
  | Some (StatusError reason _) => String.eqb reason StatusReasonNotFound
  | _ => false
  end.

(** [fmt.Errorf("%s", s)] *)
Definition Errorf (s : string) : error := errorString s.

(** ** Package record: data *)

Module record.

(** [context.Context] as far as [Marshal] sees it: an opaque token. *)
Definition Context := unit.

(** [type Marshalable interface] *)
Class Marshalable (T : Type) := {
  Marshal : T → Context → list Byte.byte * option error;
  GetExtension : T → string;
}.

(** A value of interface type [Marshalable]: a value together with the
    method table of its dynamic type. *)
Inductive MarshalableValue : Type :=
| marshalable (T : Type) (methods : Marshalable T) (v : T).
Arguments marshalable {T methods} v.

(** [type Record struct]; [Captured] is a [time.Time] reading. *)
Record Record := {
  Name : string;
  Captured : Z;
  Fingerprint : string;
  Item : MarshalableValue;
}.

(** [record.Item.Marshal(ctx)] and [record.Item.GetExtension()] through the
    interface. *)
Definition ItemMarshal (r : Record) (ctx : Context) : list Byte.byte * option error :=
  match Item r with
  | @marshalable _ methods v => @Marshal _ methods v ctx
  end.

Definition ItemExtension (r : Record) : string :=
  match Item r with
  | @marshalable _ methods v => @GetExtension _ methods v
  end.

(** [type gatherStatusReport struct] *)
Record gatherStatusReport := {
  gsr_Name : string;
  gsr_Elapsed : Z;
  gsr_Report : Z;
  gsr_Errors : list error;
}.

(** [encoding/json.Marshal] on the report slice is outside the package. *)
Class JSON := {
  json_Marshal : list gatherStatusReport → list Byte.byte * option error;
}.

(** [type JSONMarshaller struct]; the only [Object] this package ever stores
    is the [[]interface{}] of [gatherStatusReport] built by [Collect]. *)
Record JSONMarshaller := { Object : list gatherStatusReport }.

#[export] Instance JSONMarshaller_Marshalable `{JSON} : Marshalable JSONMarshaller := {|
  Marshal m _ := json_Marshal (Object m);
  GetExtension _ := "json";
|}.

(** ** The outside world *)

(** One call that left the package, with what it returned. *)
Inductive Event : Type :=
| EvGather (gatherName : string) (records : list Record) (errs : list error)
| EvRecord (r : Record) (res : option error)
| EvCtxErr (res : option error).

(** Computations over a world [W] that log their outside calls. *)
Definition M (W A : Type) : Type := W → A * W * list Event.

#[export] Instance M_ret {W} : MRet (M W) := λ A a w, (a, w, []).

#[export] Instance M_bind {W} : MBind (M W) := λ A B k m w,
  let '(a, w1, t1) := m w in
  let '(b, w2, t2) := k a w1 in
  (b, w2, t1 ++ t2).

(** What [Collect] is handed and what it reaches for: [time.Now], the
    context's [Err] and the recorder's [Record] method ([type Interface]). *)
Class Env (W : Type) := {
  time_Now : W → Z * W;
  ctx_Err : W → option error * W;
  recorder_Record : Record → W → option error * W;
}.

(** A [func() ([]Record, []error)] value: its body, and the name
    [runtime.FuncForPC] reports for it. *)
Record BulkFn (W : Type) := {
  fn_name : string;
  fn_body : W → (list Record * list error) * W;
}.
Arguments fn_name {W} _.
Arguments fn_body {W} _.

Definition Now `{Env W} : M W Z :=
  λ w, let '(t, w') := time_Now w in (t, w', []).

Definition ctxErr `{Env W} : M W (option error) :=
  λ w, let '(res, w') := ctx_Err w in (res, w', [EvCtxErr res]).

Definition recorderRecord `{Env W} (r : Record) : M W (option error) :=
  λ w, let '(res, w') := recorder_Record r w in (res, w', [EvRecord r res]).

Definition call {W} (bulkFn : BulkFn W) : M W (list Record * list error) :=
  λ w, let '((records, errs), w') := fn_body bulkFn w in
       ((records, errs), w', [EvGather (fn_name bulkFn) records errs]).

(** ** Package time, as far as [Collect] uses it *)

Definition Millisecond : Z := 1000000.
Definition maxDuration : Z := 2 ^ 63 - 1.
Definition minDuration : Z := - 2 ^ 63.

(** [t.Sub(u)]: the difference, saturating at the ends of [int64]. *)
Definition Sub (t u : Z) : Z :=
  let d := t - u in
  if d <? minDuration then minDuration
  else if maxDuration <? d then maxDuration
  else d.

(** [d.Truncate(m)]: rounds toward zero to a multiple of [m]. *)
Definition Truncate (d m : Z) : Z :=
  if m <=? 0 then d else d - Z.rem d m.

(** ** Package sort and strings *)

(** Go compares strings bytewise. *)
Definition string_le (s1 s2 : string) : Prop := Is_true (String.leb s1 s2).

#[export] Instance string_le_dec s1 s2 : Decision (string_le s1 s2).
Proof. unfold string_le. apply _. Defined.

(** [sort.Strings]: the library routine is outside the package; on strings,
    where equal elements cannot be told apart, every correct sort returns
    the same slice, so a merge sort stands for it. *)
Definition sort_Strings (a : list string) : list string :=
  merge_sort string_le a.

(** [strings.Join(elems, sep)] *)
Definition strings_Join (elems : list string) (sep : string) : string :=
  String.concat sep elems.

(** ** uniqueStrings *)

(** The body of the [for] loop at index [i], on the pair of the slice and
    [last]. *)
Definition uniqueStrings_body (st : list string * nat) (i : nat) : list string * nat :=
  let '(arr, last) := st in
  if decide (arr !!! i = arr !!! last) then (arr, last)
  else
    let last := S last in
    if decide (last ≠ i) then (<[last := arr !!! i]> arr, last)
    else (arr, last).

Definition uniqueStrings (arr : list string) : list string :=
  let '(arr, last) :=
    foldl uniqueStrings_body (arr, 0%nat) (seq 1 (length arr - 1)) in
  let last := if decide (last < length arr)%nat then S last else last in
  take last arr.

(** ** Collect *)

(** The inner loop over [records]: lines 76-81. *)
Fixpoint forwardRecords `{Env W} (records : list Record) (errors : list string)
  : M W (list string) :=
  match records with
  | [] => mret errors
  | record :: records =>
      err ← recorderRecord record;
      match err with
      | Some err =>
          forwardRecords records
            (errors ++ ["unable to record " +:+ Name record +:+ ": " +:+ Error err])
      | None => forwardRecords records errors
      end
  end.

(** The loop over [bulkFns]: [inl err] is the early [return err] of line 83,
    [inr] the state in which the loop is left at its end. *)
Fixpoint collectLoop `{Env W} (bulkFns : list (BulkFn W))
    (errors : list string) (gatherReport : list gatherStatusReport)
  : M W (error + list string * list gatherStatusReport) :=
  match bulkFns with
  | [] => mret (inr (errors, gatherReport))
  | bulkFn :: bulkFns =>
      let gatherName := fn_name bulkFn in
      start ← Now;
      '(records, errs) ← call bulkFn;
      now ← Now;
      let elapsed := Truncate (Sub now start) Millisecond in
      let gatherReport :=
        gatherReport ++
          [{| gsr_Name := gatherName; gsr_Elapsed := elapsed;
              gsr_Report := Z.of_nat (length records); gsr_Errors := errs |}] in
      let errors := errors ++ (Error <$> errs) in
      errors ← forwardRecords records errors;
      err ← ctxErr;
      match err with
      | Some err => mret (inl err)
      | None => collectLoop bulkFns errors gatherReport
      end
  end.

(** The record built by [recordGatherReport]. *)
Definition gatherReportRecord `{JSON} (report : list gatherStatusReport) : Record :=
  {| Name := "insights-operator/gathers"; Captured := 0; Fingerprint := "";
     Item := marshalable {| Object := report |} |}.

Definition recordGatherReport `{Env W, JSON} (report : list gatherStatusReport)
  : M W (option error) :=
  recorderRecord (gatherReportRecord report).

(** Lines 92-97. *)
Definition aggregate (errors : list string) : option error :=
  if decide (0 < length errors)%nat then
    let errors := sort_Strings errors in
    let errors := uniqueStrings errors in
    Some (Errorf (strings_Join errors ", "))
  else None.

Definition Collect `{Env W, JSON} (bulkFns : list (BulkFn W)) : M W (option error) :=
  r ← collectLoop bulkFns [] [];
  match r with
  | inl err => mret (Some err)
  | inr (errors, gatherReport) =>
      err ← recordGatherReport gatherReport;
      let errors :=
        match err with
        | Some err => errors ++ ["unable to record io status reports: " +:+ Error err]
        | None => errors
        end in
      mret (aggregate errors)
  end.

End record.

(** ** The API objects, as far as package clusterconfig reads or writes them *)

Module metav1.
(** [metav1.ConditionStatus]-like string constants shared by the two APIs. *)
Definition ConditionTrue : string := "True".
Definition ConditionFalse : string := "False".
End metav1.

Module configv1.

Definition OperatorAvailable : string := "Available".
Definition OperatorDegraded : string := "Degraded".

Record ClusterOperatorStatusCondition := {
  cond_Type : string;
  cond_Status : string;
}.

Record ObjectReference := {
  ref_Resource : string;
  ref_Name : string;
}.

Record ClusterOperator := {
  co_Name : string;
  co_Conditions : list ClusterOperatorStatusCondition;
  co_RelatedObjects : list ObjectReference;
}.

Record ClusterVersion := {
  cv_ResourceVersion : string;
  cv_ClusterID : string;
  cv_Upstream : string;
}.

Record Infrastructure := {
  infra_APIServerURL : string;
  infra_EtcdDiscoveryDomain : string;
  infra_InfrastructureName : string;
  infra_APIServerInternalURL : string;
}.

Record Ingress := { ingress_Domain : string }.

Record ProxySpec := {
  spec_HTTPProxy : string;
  spec_HTTPSProxy : string;
  spec_NoProxy : string;
  spec_ReadinessEndpoints : list string;
}.

Record ProxyStatus := {
  status_HTTPProxy : string;
  status_HTTPSProxy : string;
  status_NoProxy : string;
}.

Record Proxy := { proxy_Spec : ProxySpec; proxy_Status : ProxyStatus }.

(** Objects the package passes on without looking inside. *)
Record FeatureGate := { fg_body : string }.
Record Network := { net_body : string }.
Record Authentication := { auth_body : string }.
Record OAuth := { oauth_body : string }.

End configv1.

Module corev1.

Definition NodeReady : string := "Ready".
Definition PodPending : string := "Pending".

Record NodeCondition := {
  ncond_Type : string;
  ncond_Status : string;
}.

Record NodeAddress := {
  addr_Type : string;
  addr_Address : string;
}.

Record NodeSystemInfo := {
  MachineID : string;
  SystemUUID : string;
  BootID : string;
}.

Record ContainerImage := {
  img_Names : list string;
  img_SizeBytes : Z;
}.

Record Node := {
  node_Name : string;
  node_Annotations : gmap string string;
  node_Labels : gmap string string;
  node_Conditions : list NodeCondition;
  node_Addresses : list NodeAddress;
  node_NodeInfo : NodeSystemInfo;
  node_Images : list ContainerImage;
}.

(** [ContainerStateTerminated], a pointer in [ContainerState]: [None] is
    [nil]. [ExitCode] is an [int32]. *)
Record ContainerStateTerminated := { ExitCode : Z }.

Record ContainerStatus := {
  State_Terminated : option ContainerStateTerminated;
  LastTerminationState_Terminated : option ContainerStateTerminated;
}.

Record Pod := {
  pod_Namespace : string;
  pod_Name : string;
  pod_Phase : string;
  pod_InitContainerStatuses : list ContainerStatus;
  pod_ContainerStatuses : list ContainerStatus;
}.

End corev1.

(** ** Package clusterconfig *)

Module clusterconfig.
Import record configv1 corev1.

(** [runtime.Object], over the kinds this package handles. *)
Inductive Object : Type :=
| ObjClusterOperator (o : ClusterOperator)
| ObjClusterVersion (o : ClusterVersion)
| ObjInfrastructure (o : Infrastructure)
| ObjNetwork (o : Network)
| ObjAuthentication (o : Authentication)
| ObjFeatureGate (o : FeatureGate)
| ObjOAuth (o : OAuth)
| ObjIngress (o : Ingress)
| ObjProxy (o : Proxy)
| ObjNode (o : Node)
| ObjPod (o : Pod).

(** What the package takes from elsewhere: [urlhash.HashURL],
    [runtime.Encode] with each of the two package-level serializers, and the
    [GetExtension] methods of its [Marshalable] types, which are declared
    outside the files at hand and are looked up here by the type's name. *)
Class External := {
  urlhash_HashURL : string → string;
  serializer_Encode : Object → list Byte.byte * option error;
  kubeSerializer_Encode : Object → list Byte.byte * option error;
  extensionOf : string → string;
}.

(** The two typed clients. Every call reaches the remote API, whose state is
    [C]; a call returns its result object together with the error, as the
    generated clients do (the result is allocated before the request and is
    never [nil]). *)
Class Clients (C : Type) := {
  ClusterOperators_List : C → (list ClusterOperator * option error) * C;
  ClusterVersions_Get : string → C → (ClusterVersion * option error) * C;
  Infrastructures_Get : string → C → (Infrastructure * option error) * C;
  Networks_Get : string → C → (Network * option error) * C;
  Authentications_Get : string → C → (Authentication * option error) * C;
  FeatureGates_Get : string → C → (FeatureGate * option error) * C;
  OAuths_Get : string → C → (OAuth * option error) * C;
  Ingresses_Get : string → C → (Ingress * option error) * C;
  Proxies_Get : string → C → (Proxy * option error) * C;
  Pods_List : string → C → (list Pod * option error) * C;
  Nodes_List : C → (list Node * option error) * C;
}.

(** [type Gatherer struct]: [cluster] is what [client] and [coreClient]
    talk to. The mutex orders concurrent callers and has no counterpart in
    this sequential model. *)
Record Gatherer (C : Type) := {
  cluster : C;
  lastVersion : option ClusterVersion;
}.
Arguments cluster {C} _.
Arguments lastVersion {C} _.

(** [func New]: no cluster version seen yet. *)
Definition New {C} (c : C) : Gatherer C :=
  {| cluster := c; lastVersion := None |}.

(** *** Anonymization *)

(** [strings.Contains] *)
Fixpoint strings_Contains (s substr : string) : bool :=
  if String.prefix substr s then true
  else match s with
       | EmptyString => false
       | String _ s' => strings_Contains s' substr
       end.

(** [strings.Repeat] *)
Fixpoint strings_Repeat (s : string) (count : nat) : string :=
  match count with
  | O => ""
  | S count => s +:+ strings_Repeat s count
  end.

(** [strings.Split(s, ",")] *)
Fixpoint strings_Split_comma (s : string) : list string :=
  match s with
  | EmptyString => [""]
  | String c s' =>
      if Ascii.eqb c ","%char then "" :: strings_Split_comma s'
      else match strings_Split_comma s' with
           | hd :: tl => String c hd :: tl
           | [] => [String c ""]
           end
  end.

Definition anonymizeURL `{External} (s : string) : string := urlhash_HashURL s.

Definition anonymizeURLSlice `{External} (in_ : list string) : list string :=
  foldl (λ outSlice str, outSlice ++ [anonymizeURL str]) [] in_.

Definition anonymizeURLCSV `{External} (s : string) : string :=
  let strs := strings_Split_comma s in
  let outSlice := anonymizeURLSlice strs in
  strings_Join outSlice ",".

Definition anonymizeString (s : string) : string :=
  strings_Repeat "x" (String.length s).

Definition isProductNamespacedKey (key : string) : bool :=
  strings_Contains key "openshift.io/" || strings_Contains key "k8s.io/"
  || strings_Contains key "kubernetes.io/".

Definition anonymizeInfrastructure `{External} (config : Infrastructure) : Infrastructure :=
  {| infra_APIServerURL := anonymizeURL (infra_APIServerURL config);
     infra_EtcdDiscoveryDomain := anonymizeURL (infra_EtcdDiscoveryDomain config);
     infra_InfrastructureName := anonymizeURL (infra_InfrastructureName config);
     infra_APIServerInternalURL := anonymizeURL (infra_APIServerInternalURL config) |}.

(** The two [range] loops of [anonymizeNode] over the maps: each visits every
    key once and assigns under that key only. *)
Definition anonymizeAnnotations (annotations : gmap string string) : gmap string string :=
  map_fold (λ k _ acc, if isProductNamespacedKey k then acc else <[k := ""]> acc)
    annotations annotations.

Definition anonymizeLabels (labels : gmap string string) : gmap string string :=
  map_fold (λ k v acc,
      if isProductNamespacedKey k then acc else <[k := anonymizeString v]> acc)
    labels labels.

Definition anonymizeNode `{External} (node : Node) : Node :=
  {| node_Name := node_Name node;
     node_Annotations := anonymizeAnnotations (node_Annotations node);
     node_Labels := anonymizeLabels (node_Labels node);
     node_Conditions := node_Conditions node;
     node_Addresses :=
       (λ a, {| addr_Type := addr_Type a;
                addr_Address := anonymizeURL (addr_Address a) |})
         <$> node_Addresses node;
     node_NodeInfo :=
       {| MachineID := anonymizeString (MachineID (node_NodeInfo node));
          SystemUUID := anonymizeString (SystemUUID (node_NodeInfo node));
          BootID := anonymizeString (BootID (node_NodeInfo node)) |};
     node_Images := [] |}.

Definition anonymizePod (pod : Pod) : Pod := pod.

(** *** The Marshalable types *)

Record Raw := { raw_string : string }.
Record Anonymizer := { anon_Object : Object }.
Record InfrastructureAnonymizer := { ia_Infrastructure : Infrastructure }.
Record ClusterVersionAnonymizer := { cva_ClusterVersion : ClusterVersion }.
Record FeatureGateAnonymizer := { fga_FeatureGate : FeatureGate }.
Record IngressAnonymizer := { inga_Ingress : Ingress }.
Record ProxyAnonymizer := { pa_Proxy : Proxy }.
Record ClusterOperatorAnonymizer := { coa_ClusterOperator : ClusterOperator }.
Record NodeAnonymizer := { na_Node : Node }.
Record PodAnonymizer := { poda_Pod : Pod }.

#[export] Instance Raw_Marshalable `{External} : Marshalable Raw := {|
  Marshal r _ := (list_byte_of_string (raw_string r), None);
  GetExtension _ := extensionOf "Raw";
|}.

#[export] Instance Anonymizer_Marshalable `{External} : Marshalable Anonymizer := {|
  Marshal a _ := serializer_Encode (anon_Object a);
  GetExtension _ := extensionOf "Anonymizer";
|}.

#[export] Instance InfrastructureAnonymizer_Marshalable `{External}
  : Marshalable InfrastructureAnonymizer := {|
  Marshal a _ :=
    serializer_Encode (ObjInfrastructure (anonymizeInfrastructure (ia_Infrastructure a)));
  GetExtension _ := extensionOf "InfrastructureAnonymizer";
|}.

#[export] Instance ClusterVersionAnonymizer_Marshalable `{External}
  : Marshalable ClusterVersionAnonymizer := {|
  Marshal a _ :=
    let cv := cva_ClusterVersion a in
    serializer_Encode (ObjClusterVersion
      {| cv_ResourceVersion := cv_ResourceVersion cv;
         cv_ClusterID := cv_ClusterID cv;
         cv_Upstream := anonymizeURL (cv_Upstream cv) |});
  GetExtension _ := extensionOf "ClusterVersionAnonymizer";
|}.

#[export] Instance FeatureGateAnonymizer_Marshalable `{External}
  : Marshalable FeatureGateAnonymizer := {|
  Marshal a _ := serializer_Encode (ObjFeatureGate (fga_FeatureGate a));
  GetExtension _ := extensionOf "FeatureGateAnonymizer";
|}.

#[export] Instance IngressAnonymizer_Marshalable `{External}
  : Marshalable IngressAnonymizer := {|
  Marshal a _ :=
    serializer_Encode (ObjIngress
      {| ingress_Domain := anonymizeURL (ingress_Domain (inga_Ingress a)) |});
  GetExtension _ := extensionOf "IngressAnonymizer";
|}.

#[export] Instance ProxyAnonymizer_Marshalable `{External}
  : Marshalable ProxyAnonymizer := {|
  Marshal a _ :=
    let spec := proxy_Spec (pa_Proxy a) in
    let status := proxy_Status (pa_Proxy a) in
    serializer_Encode (ObjProxy
      {| proxy_Spec :=
           {| spec_HTTPProxy := anonymizeURLCSV (spec_HTTPProxy spec);
              spec_HTTPSProxy := anonymizeURLCSV (spec_HTTPSProxy spec);
              spec_NoProxy := anonymizeURLCSV (spec_NoProxy spec);
              spec_ReadinessEndpoints :=
                anonymizeURLSlice (spec_ReadinessEndpoints spec) |};
         proxy_Status :=
           {| status_HTTPProxy := anonymizeURLCSV (status_HTTPProxy status);
              status_HTTPSProxy := anonymizeURLCSV (status_HTTPSProxy status);
              status_NoProxy := anonymizeURLCSV (status_NoProxy status) |} |});
  GetExtension _ := extensionOf "ProxyAnonymizer";
|}.

#[export] Instance ClusterOperatorAnonymizer_Marshalable `{External}
  : Marshalable ClusterOperatorAnonymizer := {|
  Marshal a _ := serializer_Encode (ObjClusterOperator (coa_ClusterOperator a));
  GetExtension _ := extensionOf "ClusterOperatorAnonymizer";
|}.

#[export] Instance NodeAnonymizer_Marshalable `{External} : Marshalable NodeAnonymizer := {|
  Marshal a _ := kubeSerializer_Encode (ObjNode (anonymizeNode (na_Node a)));
  GetExtension _ := extensionOf "NodeAnonymizer";
|}.

#[export] Instance PodAnonymizer_Marshalable `{External} : Marshalable PodAnonymizer := {|
  Marshal a _ := kubeSerializer_Encode (ObjPod (anonymizePod (poda_Pod a)));
  GetExtension _ := extensionOf "PodAnonymizer";
|}.

(** A [record.Record] literal that sets [Name] and [Item] only. *)
Definition mkRecord {T} `{Marshalable T} (name : string) (item : T) : Record :=
  {| Name := name; Captured := 0; Fingerprint := ""; Item := marshalable item |}.

(** *** Health predicates *)

(** The [for] loops with an early [return false] are recursions over the
    slice that stop at the first hit. *)
Fixpoint isHealthyOperator_conditions (conditions : list ClusterOperatorStatusCondition) : bool :=
  match conditions with
  | [] => true
  | condition :: conditions =>
      if (String.eqb (cond_Type condition) OperatorDegraded
          && String.eqb (cond_Status condition) metav1.ConditionTrue)
         || (String.eqb (cond_Type condition) OperatorAvailable
             && String.eqb (cond_Status condition) metav1.ConditionFalse)
      then false
      else isHealthyOperator_conditions conditions
  end.

Definition isHealthyOperator (operator : ClusterOperator) : bool :=
  isHealthyOperator_conditions (co_Conditions operator).

Definition namespacesForOperator (operator : ClusterOperator) : list string :=
  foldl (λ ns ref,
      if String.eqb (ref_Resource ref) "namespaces" then ns ++ [ref_Name ref] else ns)
    [] (co_RelatedObjects operator).

Fixpoint isHealthyNode_conditions (conditions : list NodeCondition) : bool :=
  match conditions with
  | [] => true
  | condition :: conditions =>
      if String.eqb (ncond_Type condition) NodeReady
         && negb (String.eqb (ncond_Status condition) metav1.ConditionTrue)
      then false
      else isHealthyNode_conditions conditions
  end.

Definition isHealthyNode (node : Node) : bool :=
  isHealthyNode_conditions (node_Conditions node).

Definition terminatedNonZero (t : option ContainerStateTerminated) : bool :=
  match t with
  | Some t => negb (ExitCode t =? 0)
  | None => false
  end.

Fixpoint isHealthyPod_statuses (statuses : list ContainerStatus) : bool :=
  match statuses with
  | [] => true
  | status :: statuses =>
      if terminatedNonZero (LastTerminationState_Terminated status) then false
      else if terminatedNonZero (State_Terminated status) then false
      else isHealthyPod_statuses statuses
  end.

Definition isHealthyPod (pod : Pod) : bool :=
  if String.eqb (pod_Phase pod) PodPending then false
  else if negb (isHealthyPod_statuses (pod_InitContainerStatuses pod)) then false
  else isHealthyPod_statuses (pod_ContainerStatuses pod).

(** *** The shared cluster version *)

(** [version.DeepCopy()] yields an equal value. *)
Definition setClusterVersion {C} (i : Gatherer C) (version : ClusterVersion) : Gatherer C :=
  match lastVersion i with
  | Some last =>
      if String.eqb (cv_ResourceVersion last) (cv_ResourceVersion version) then i
      else {| cluster := cluster i; lastVersion := Some version |}
  | None => {| cluster := cluster i; lastVersion := Some version |}
  end.

(** [func (i *Gatherer) ClusterVersion()], under another name since the type
    has this one. *)
Definition getClusterVersion {C} (i : Gatherer C) : option ClusterVersion :=
  lastVersion i.

(** *** The gather functions handed to Collect *)

(** The result of a gather function together with the gatherer after it. *)
Definition Gathered (C : Type) : Type := (list Record * list error) * Gatherer C.

Definition withCluster {C} (i : Gatherer C) (c : C) : Gatherer C :=
  {| cluster := c; lastVersion := lastVersion i |}.

(** The loop over [pods.Items], lines 76-81. *)
Definition appendUnhealthyPods `{External} (pods : list Pod) (records : list Record)
  : list Record :=
  foldl (λ records pod,
      if isHealthyPod pod then records
      else records ++
             [mkRecord ("config/pod/" +:+ pod_Namespace pod +:+ "/" +:+ pod_Name pod)
                {| poda_Pod := pod |}])
    records pods.

(** The loop over [namespacesForOperator(&item)], lines 71-82. A failing
    list call is logged and the loop goes on with what the call returned. *)
Fixpoint gatherPodsOf `{External} `{Clients C} (namespaces : list string)
    (records : list Record) (c : C) : list Record * C :=
  match namespaces with
  | [] => (records, c)
  | namespace :: namespaces =>
      let '((pods, err), c) := Pods_List namespace c in
      gatherPodsOf namespaces (appendUnhealthyPods pods records) c
  end.

(** The loop over [config.Items], lines 67-83. *)
Fixpoint gatherFailingOperators `{External} `{Clients C} (items : list ClusterOperator)
    (records : list Record) (c : C) : list Record * C :=
  match items with
  | [] => (records, c)
  | item :: items =>
      if isHealthyOperator item then gatherFailingOperators items records c
      else
        let '(records, c) := gatherPodsOf (namespacesForOperator item) records c in
        gatherFailingOperators items records c
  end.

Definition gatherClusterOperators `{External} `{Clients C} (i : Gatherer C) : Gathered C :=
  let '((config, err), c) := ClusterOperators_List (cluster i) in
  if IsNotFound err then (([], []), withCluster i c)
  else match err with
  | Some err => (([], [err]), withCluster i c)
  | None =>
      let records :=
        foldl (λ records item,
            records ++ [mkRecord ("config/clusteroperator/" +:+ co_Name item)
                          {| coa_ClusterOperator := item |}])
          [] config in
      let '(records, c) := gatherFailingOperators config records c in
      ((records, []), withCluster i c)
  end.

Definition gatherNodes `{External} `{Clients C} (i : Gatherer C) : Gathered C :=
  let '((nodes, err), c) := Nodes_List (cluster i) in
  match err with
  | Some err => (([], [err]), withCluster i c)
  | None =>
      let records :=
        foldl (λ records node,
            if isHealthyNode node then records
            else records ++ [mkRecord ("config/node/" +:+ node_Name node)
                               {| na_Node := node |}])
          [] nodes in
      ((records, []), withCluster i c)
  end.

Definition gatherClusterVersion `{External} `{Clients C} (i : Gatherer C) : Gathered C :=
  let '((config, err), c) := ClusterVersions_Get "version" (cluster i) in
  if IsNotFound err then (([], []), withCluster i c)
  else match err with
  | Some err => (([], [err]), withCluster i c)
  | None =>
      let i := setClusterVersion (withCluster i c) config in
      (([mkRecord "config/version" {| cva_ClusterVersion := config |}], []), i)
  end.

Definition gatherClusterID `{External} {C} (i : Gatherer C) : Gathered C :=
  let version := getClusterVersion i in
  match version with
  | None => (([], []), i)
  | Some version =>
      (([mkRecord "config/id" {| raw_string := cv_ClusterID version |}], []), i)
  end.

(** The seven functions that get one object named ["cluster"] share one
    shape: lines 120-189. *)
Definition gatherSingleton `{External} {C T A} `{Marshalable A}
    (get : string → C → (T * option error) * C) (name : string) (wrap : T → A)
    (i : Gatherer C) : Gathered C :=
  let '((config, err), c) := get "cluster" (cluster i) in
  if IsNotFound err then (([], []), withCluster i c)
  else match err with
  | Some err => (([], [err]), withCluster i c)
  | None => (([mkRecord name (wrap config)], []), withCluster i c)
  end.

Definition gatherInfrastructure `{External} `{Clients C} : Gatherer C → Gathered C :=
  gatherSingleton Infrastructures_Get "config/infrastructure" Build_InfrastructureAnonymizer.

Definition gatherNetwork `{External} `{Clients C} : Gatherer C → Gathered C :=
  gatherSingleton Networks_Get "config/network" (λ o, {| anon_Object := ObjNetwork o |}).

Definition gatherAuthentication `{External} `{Clients C} : Gatherer C → Gathered C :=
  gatherSingleton Authentications_Get "config/authentication"
    (λ o, {| anon_Object := ObjAuthentication o |}).

Definition gatherFeatureGate `{External} `{Clients C} : Gatherer C → Gathered C :=
  gatherSingleton FeatureGates_Get "config/featuregate" Build_FeatureGateAnonymizer.

Definition gatherOAuth `{External} `{Clients C} : Gatherer C → Gathered C :=
  gatherSingleton OAuths_Get "config/oauth" (λ o, {| anon_Object := ObjOAuth o |}).

Definition gatherIngress `{External} `{Clients C} : Gatherer C → Gathered C :=
  gatherSingleton Ingresses_Get "config/ingress" Build_IngressAnonymizer.

Definition gatherProxy `{External} `{Clients C} : Gatherer C → Gathered C :=
  gatherSingleton Proxies_Get "config/proxy" Build_ProxyAnonymizer.

(** The closures in the order [Gather] passes them. *)
Definition gatherFunctions `{External} `{Clients C} : list (Gatherer C → Gathered C) :=
  [ gatherClusterOperators; gatherNodes; gatherClusterVersion; gatherClusterID;
    gatherInfrastructure; gatherNetwork; gatherAuthentication; gatherFeatureGate;
    gatherOAuth; gatherIngress; gatherProxy ].

(** *** Gather *)

(** The world of a [Gather] call: the gatherer, and the state [E] behind the
    clock, the context and the recorder. *)
#[export] Instance GatherEnv {C E} `{Env E} : Env (Gatherer C * E) := {|
  time_Now w := let '(t, s) := time_Now (snd w) in (t, (fst w, s));
  ctx_Err w := let '(e, s) := ctx_Err (snd w) in (e, (fst w, s));
  recorder_Record r w := let '(e, s) := recorder_Record r (snd w) in (e, (fst w, s));
|}.

(** The name [runtime.FuncForPC] gives the [n]-th closure of [Gather]. *)
Definition closureName (n : nat) : string :=
  "github.com/openshift/insights-operator/pkg/gather/clusterconfig.(*Gatherer).Gather.func"
  +:+ pretty n.

Definition closure {C E} (n : nat) (f : Gatherer C → Gathered C) : BulkFn (Gatherer C * E) :=
  {| fn_name := closureName (S n);
     fn_body w := let '(out, i) := f (fst w) in (out, (i, snd w)) |}.

Definition Gather `{External} `{JSON} `{Clients C} `{Env E}
  : M (Gatherer C * E) (option error) :=
  Collect (imap closure gatherFunctions).

End clusterconfig.

(** * Specification vocabulary *)

Module CollectSpec.
Import record.

(** Removal of adjacent duplicates as the specification words it: of every
    run of equal neighbours the first is kept. *)
Fixpoint dropRun (x : string) (l : list string) : list string :=
  match l with
  | [] => []
  | y :: l => if decide (y = x) then dropRun x l else y :: dropRun y l
  end.

Definition adjacentDedup (l : list string) : list string :=
  match l with
  | [] => []
  | x :: l => x :: dropRun x l
  end.

(** One turn of the loop of [Collect], as seen from outside: the gather
    function that ran, what it returned, what the recorder answered for each
    of its records, and what the context answered afterwards. *)
Record Round := {
  rd_name : string;
  rd_records : list Record;
  rd_errs : list error;
  rd_results : list (option error);
  rd_check : option error;
}.

Definition forwardEvents (records : list Record) (results : list (option error))
  : list Event :=
  zip_with EvRecord records results.

(** The message for a record the recorder refused, none for one it took. *)
Definition recordFailure (r : Record) (res : option error) : list string :=
  match res with
  | Some err => ["unable to record " +:+ Name r +:+ ": " +:+ Error err]
  | None => []
  end.

Definition recordFailures (records : list Record) (results : list (option error))
  : list string :=
  concat (zip_with recordFailure records results).

Definition roundEvents (rd : Round) : list Event :=
  EvGather (rd_name rd) (rd_records rd) (rd_errs rd)
    :: forwardEvents (rd_records rd) (rd_results rd) ++ [EvCtxErr (rd_check rd)].

Definition roundErrors (rd : Round) : list string :=
  (Error <$> rd_errs rd) ++ recordFailures (rd_records rd) (rd_results rd).

(** Every record of the round got an answer. *)
Definition roundComplete (rd : Round) : Prop :=
  length (rd_results rd) = length (rd_records rd).

(** The report entry of a round, whatever its elapsed time. *)
Definition entryOf (rd : Round) (e : gatherStatusReport) : Prop :=
  gsr_Name e = rd_name rd
  ∧ gsr_Report e = Z.of_nat (length (rd_records rd))
  ∧ gsr_Errors e = rd_errs rd.

Definition reportFailure (res : option error) : list string :=
  match res with
  | Some err => ["unable to record io status reports: " +:+ Error err]
  | None => []
  end.

(** The first error a context check returned in a trace, if any did. *)
Fixpoint cancelled (tr : list Event) : option error :=
  match tr with
  | [] => None
  | EvCtxErr (Some err) :: _ => Some err
  | _ :: tr => cancelled tr
  end.

(** The names of the gather functions called, the records handed to the
    recorder, and the messages the loop of [Collect] appends, read off a
    trace. *)
Definition gathersOf (tr : list Event) : list string :=
  tr ≫= λ ev, match ev with EvGather name _ _ => [name] | _ => [] end.

Definition forwardedOf (tr : list Event) : list Record :=
  tr ≫= λ ev, match ev with EvRecord r _ => [r] | _ => [] end.

Definition gatheredOf (tr : list Event) : list Record :=
  tr ≫= λ ev, match ev with EvGather _ records _ => records | _ => [] end.

Definition loopErrorsOf (tr : list Event) : list string :=
  tr ≫= λ ev, match ev with
              | EvGather _ _ errs => Error <$> errs
              | EvRecord r res => recordFailure r res
              | EvCtxErr _ => []
              end.

(** A run of [Collect]: result, final world and trace. *)
Definition resultOf {W A} (run : A * W * list Event) : A := run.1.1.
Definition traceOf {W A} (run : A * W * list Event) : list Event := run.2.


(** What holds of the slice and of [last] in [uniqueStrings] after the turns
    [i = 1 .. k] of its loop, [arr0] being the slice it was given. *)
Definition uniqueInv (arr0 : list string) (k : nat) (st : list string * nat) : Prop :=
  let '(arr, j) := st in
  length arr = length arr0
  ∧ (j ≤ k)%nat
  ∧ take (S j) arr = adjacentDedup (take (S k) arr0)
  ∧ drop (S k) arr = drop (S k) arr0
  ∧ arr !! j = arr0 !! k.

(** How the loop over the gather functions was left. *)
Definition loopOutcome {W} (bulkFns : list (BulkFn W)) (errors : list string)
    (gatherReport : list gatherStatusReport) (rounds : list Round)
    (r : error + list string * list gatherStatusReport) : Prop :=
  match r with
  | inl err =>
      ∃ pre rd, rounds = pre ++ [rd]
        ∧ Forall (λ rd, rd_check rd = None) pre ∧ rd_check rd = Some err
  | inr (errors', gatherReport') =>
      length rounds = length bulkFns
      ∧ Forall (λ rd, rd_check rd = None) rounds
      ∧ errors' = errors ++ (rounds ≫= roundErrors)
      ∧ ∃ entries, gatherReport' = gatherReport ++ entries
                   ∧ Forall2 entryOf rounds entries
  end.

(** A run of [Collect] either stops at the first context check that returns
    an error, or goes through every gather function and then hands the
    report to the recorder. *)
Definition stoppedRun {W} (rounds : list Round) (run : option error * W * list Event)
  : Prop :=
  ∃ pre rd err,
    rounds = pre ++ [rd]
    ∧ Forall (λ rd, rd_check rd = None) pre ∧ rd_check rd = Some err
    ∧ traceOf run = rounds ≫= roundEvents
    ∧ resultOf run = Some err.

Definition finishedRun {W} `{JSON} (bulkFns : list (BulkFn W)) (rounds : list Round)
    (run : option error * W * list Event) : Prop :=
  length rounds = length bulkFns
  ∧ Forall (λ rd, rd_check rd = None) rounds
  ∧ ∃ report res,
      Forall2 entryOf rounds report
      ∧ traceOf run
        = (rounds ≫= roundEvents) ++ [EvRecord (gatherReportRecord report) res]
      ∧ resultOf run = aggregate ((rounds ≫= roundErrors) ++ reportFailure res).

(** A recorder that takes what the given one takes and never refuses, and
    a trace with the recorder's answers wiped out: the means to say that
    these answers steer nothing. *)
Definition neverRefusing {W} (E : Env W) : Env W := {|
  time_Now := @time_Now W E;
  ctx_Err := @ctx_Err W E;
  recorder_Record r w := (None, (@recorder_Record W E r w).2);
|}.

Definition eraseAnswer (ev : Event) : Event :=
  match ev with
  | EvRecord r _ => EvRecord r None
  | _ => ev
  end.

(** Two ways out of the loop of [Collect] that differ in the accumulated
    messages at most. *)
Definition sameExit (r r' : error + list string * list gatherStatusReport) : Prop :=
  match r, r' with
  | inl err, inl err' => err = err'
  | inr (_, gatherReport), inr (_, gatherReport') => gatherReport = gatherReport'
  | _, _ => False
  end.

End CollectSpec.

(** * Scenarios *)

(** A scripted world to run [Collect] in: a clock, the answers the context
    will give to its next checks (no error once the script is used up), a
    recorder that either keeps every record or refuses every record. *)
Module Scenario.
Import record CollectSpec.

Record World := {
  clock : Z;
  checks : list (option error);
  sinkDown : bool;
  stored : list Record;
}.

#[export] Instance ScriptedEnv : Env World := {|
  time_Now w :=
    (clock w, {| clock := clock w + 1500000; checks := checks w;
                 sinkDown := sinkDown w; stored := stored w |});
  ctx_Err w :=
    match checks w with
    | [] => (None, w)
    | check :: rest =>
        (check, {| clock := clock w; checks := rest;
                   sinkDown := sinkDown w; stored := stored w |})
    end;
  recorder_Record r w :=
    if sinkDown w then (Some (errorString "sink is down"), w)
    else (None, {| clock := clock w; checks := checks w;
                   sinkDown := sinkDown w; stored := stored w ++ [r] |});
|}.

#[export] Instance ScriptedJSON : JSON := {|
  json_Marshal report := (list_byte_of_string "[]", None);
|}.

Definition start (script : list (option error)) (down : bool) : World :=
  {| clock := 0; checks := script; sinkDown := down; stored := [] |}.

Definition plainRecord (name : string) : Record :=
  {| Name := name; Captured := 0; Fingerprint := "";
     Item := marshalable {| Object := [] |} |}.

(** Three gather functions: one that finds nothing, one that returns two
    records, one that returns the error ["x"]. *)
Definition quietFn : BulkFn World :=
  {| fn_name := "quiet"; fn_body w := (([], []), w) |}.

Definition twoRecordsFn : BulkFn World :=
  {| fn_name := "two";
     fn_body w := (([plainRecord "config/a"; plainRecord "config/b"], []), w) |}.

Definition failingFn : BulkFn World :=
  {| fn_name := "failing"; fn_body w := (([], [errorString "x"]), w) |}.

End Scenario.

Module ClusterSpec.
Import record configv1 corev1 clusterconfig.

(** The records the gather functions build for an operator, a pod, a node. *)
Definition operatorRecord `{External} (item : ClusterOperator) : Record :=
  mkRecord ("config/clusteroperator/" +:+ co_Name item) {| coa_ClusterOperator := item |}.

Definition podRecord `{External} (pod : Pod) : Record :=
  mkRecord ("config/pod/" +:+ pod_Namespace pod +:+ "/" +:+ pod_Name pod)
    {| poda_Pod := pod |}.

Definition nodeRecord `{External} (node : Node) : Record :=
  mkRecord ("config/node/" +:+ node_Name node) {| na_Node := node |}.

(** The health conditions as the specification words them. *)
Definition degradedOrUnavailable (condition : ClusterOperatorStatusCondition) : Prop :=
  (cond_Type condition = "Degraded" ∧ cond_Status condition = "True")
  ∨ (cond_Type condition = "Available" ∧ cond_Status condition = "False").

Definition readyNotTrue (condition : NodeCondition) : Prop :=
  ncond_Type condition = "Ready" ∧ ncond_Status condition ≠ "True".

(** The three domain segments that mark a key as the platform's own. *)
Definition trustedSegments : list string :=
  ["openshift.io/"; "k8s.io/"; "kubernetes.io/"].

Definition containsSegment (key segment : string) : Prop :=
  ∃ before after, key = before +:+ segment +:+ after.

(** The call a gather function opens with, by the position of the function
    in [gatherFunctions]: the error it returned and the cluster after it.
    The cluster-id function, at position 3, calls nothing. *)
Definition opening `{Clients C} (n : nat) (c : C) : option (option error * C) :=
  match n with
  | 0%nat => let '((_, err), c) := ClusterOperators_List c in Some (err, c)
  | 1%nat => let '((_, err), c) := Nodes_List c in Some (err, c)
  | 2%nat => let '((_, err), c) := ClusterVersions_Get "version" c in Some (err, c)
  | 4%nat => let '((_, err), c) := Infrastructures_Get "cluster" c in Some (err, c)
  | 5%nat => let '((_, err), c) := Networks_Get "cluster" c in Some (err, c)
  | 6%nat => let '((_, err), c) := Authentications_Get "cluster" c in Some (err, c)
  | 7%nat => let '((_, err), c) := FeatureGates_Get "cluster" c in Some (err, c)
  | 8%nat => let '((_, err), c) := OAuths_Get "cluster" c in Some (err, c)
  | 9%nat => let '((_, err), c) := Ingresses_Get "cluster" c in Some (err, c)
  | 10%nat => let '((_, err), c) := Proxies_Get "cluster" c in Some (err, c)
  | _ => None
  end.

End ClusterSpec.

(** A cluster that answers every call from a fixed sheet. *)
Module ClusterScenario.
Import record configv1 corev1 clusterconfig.

#[export] Instance PlainExternal : External := {|
  urlhash_HashURL s := if String.eqb s "" then "" else "hashed";
  serializer_Encode _ := ([], None);
  kubeSerializer_Encode _ := ([], None);
  extensionOf _ := "json";
|}.

Record Sheet := {
  operators : list ClusterOperator * option error;
  podsIn : string → list Pod * option error;
  nodes : list Node * option error;
  version : ClusterVersion * option error;
}.

Definition notFound : error := StatusError StatusReasonNotFound "not found".

#[export] Instance SheetClients : Clients Sheet := {|
  ClusterOperators_List c := (operators c, c);
  ClusterVersions_Get _ c := (version c, c);
  Infrastructures_Get _ c :=
    (({| infra_APIServerURL := ""; infra_EtcdDiscoveryDomain := "";
         infra_InfrastructureName := ""; infra_APIServerInternalURL := "" |},
      Some notFound), c);
  Networks_Get _ c := (({| net_body := "" |}, Some notFound), c);
  Authentications_Get _ c := (({| auth_body := "" |}, Some notFound), c);
  FeatureGates_Get _ c := (({| fg_body := "" |}, Some notFound), c);
  OAuths_Get _ c := (({| oauth_body := "" |}, Some notFound), c);
  Ingresses_Get _ c := (({| ingress_Domain := "" |}, Some notFound), c);
  Proxies_Get _ c :=
    (({| proxy_Spec := {| spec_HTTPProxy := ""; spec_HTTPSProxy := "";
                          spec_NoProxy := ""; spec_ReadinessEndpoints := [] |};
         proxy_Status := {| status_HTTPProxy := ""; status_HTTPSProxy := "";
                            status_NoProxy := "" |} |},
      Some notFound), c);
  Pods_List namespace c := (podsIn c namespace, c);
  Nodes_List c := (nodes c, c);
|}.

Definition noVersion : ClusterVersion :=
  {| cv_ResourceVersion := ""; cv_ClusterID := ""; cv_Upstream := "" |}.

Definition operatorWith (name : string)
    (conditions : list ClusterOperatorStatusCondition) (namespaces : list string)
  : ClusterOperator :=
  {| co_Name := name; co_Conditions := conditions;
     co_RelatedObjects :=
       (λ ns, {| ref_Resource := "namespaces"; ref_Name := ns |}) <$> namespaces |}.

Definition nodeWith (name : string) (conditions : list NodeCondition) : Node :=
  {| node_Name := name; node_Annotations := ∅; node_Labels := ∅;
     node_Conditions := conditions; node_Addresses := [];
     node_NodeInfo := {| MachineID := ""; SystemUUID := ""; BootID := "" |};
     node_Images := [] |}.

(** One operator with no condition at all, hence healthy. *)
Definition healthyCluster : Sheet :=
  {| operators := ([operatorWith "dns" [] ["openshift-dns"]], None);
     podsIn _ := ([], None);
     nodes := ([], None);
     version := (noVersion, Some notFound) |}.

(** One degraded operator whose namespace cannot be listed. *)
Definition podsUnlistable : Sheet :=
  {| operators :=
       ([operatorWith "dns" [{| cond_Type := "Degraded"; cond_Status := "True" |}]
           ["openshift-dns"]], None);
     podsIn _ := ([], Some (errorString "the server is currently unable to handle the request"));
     nodes := ([], None);
     version := (noVersion, Some notFound) |}.

(** A cluster where the listing calls fail outright. *)
Definition unreachable : Sheet :=
  {| operators := ([], Some (errorString "connection refused"));
     podsIn _ := ([], Some (errorString "connection refused"));
     nodes := ([], Some (errorString "connection refused"));
     version := (noVersion, Some (errorString "connection refused")) |}.

Definition versionWith (resourceVersion clusterID : string) : ClusterVersion :=
  {| cv_ResourceVersion := resourceVersion; cv_ClusterID := clusterID;
     cv_Upstream := "" |}.

End ClusterScenario.

(** * Further vocabulary *)

Module MoreSpec.
Import record configv1 corev1 clusterconfig CollectSpec ClusterSpec.

(** A container status that records a termination with a non-zero exit
    code, now or the last time. *)
Definition terminatedWithFailure (status : ContainerStatus) : Prop :=
  (∃ t, LastTerminationState_Terminated status = Some t ∧ ExitCode t ≠ 0)
  ∨ (∃ t, State_Terminated status = Some t ∧ ExitCode t ≠ 0).

(** A name under ["config/"]. *)
Definition underConfig (r : Record) : Prop :=
  String.prefix "config/" (Name r) = true.

(** A call that went well: a gather function that returned no error, a
    record the recorder took, a context check that found no error. *)
Definition wentWell (ev : Event) : Prop :=
  match ev with
  | EvGather _ _ errs => errs = []
  | EvRecord _ res => res = None
  | EvCtxErr res => res = None
  end.

(** A duration that is a whole number of milliseconds and fits [int64]. *)
Definition wholeMilliseconds (d : Z) : Prop :=
  (Millisecond | d) ∧ minDuration ≤ d ≤ maxDuration.

(** No two neighbours are equal. *)
Definition noAdjacentDup (l : list string) : Prop :=
  ∀ (i : nat) (x : string), l !! i = Some x → l !! S i ≠ Some x.

(** A string without a comma. *)
Definition commaFree (s : string) : Prop :=
  ∀ n : nat, String.get n s ≠ Some ","%char.

End MoreSpec.

(** A cluster with a degraded operator whose namespace holds a pending pod
    and a running one, and a cluster that knows its version. *)
Module MoreScenario.
Import record configv1 corev1 clusterconfig ClusterScenario.

Definition podWith (namespace name phase : string) (statuses : list ContainerStatus) : Pod :=
  {| pod_Namespace := namespace; pod_Name := name; pod_Phase := phase;
     pod_InitContainerStatuses := []; pod_ContainerStatuses := statuses |}.

Definition exited (code : Z) : ContainerStatus :=
  {| State_Terminated := Some {| ExitCode := code |};
     LastTerminationState_Terminated := None |}.

Definition degradedCluster : Sheet :=
  {| operators :=
       ([operatorWith "dns" [{| cond_Type := "Degraded"; cond_Status := "True" |}]
           ["openshift-dns"]], None);
     podsIn namespace :=
       if String.eqb namespace "openshift-dns"
       then ([podWith "openshift-dns" "dns-1" "Pending" [];
              podWith "openshift-dns" "dns-2" "Running" [exited 0];
              podWith "openshift-dns" "dns-3" "Running" [exited 137]], None)
       else ([], None);
     nodes := ([], None);
     version := (versionWith "41" "cluster-a", None) |}.

(** A cluster none of whose resources exists. *)
Definition bare : Sheet :=
  {| operators := ([], Some notFound);
     podsIn _ := ([], Some notFound);
     nodes := ([], Some notFound);
     version := (noVersion, Some notFound) |}.

End MoreScenario.

(** * Proofs *)

Module StringsProofs.
Import record CollectSpec.

Lemma ascii_compare_N (a b : ascii) :
  Ascii.compare a b = N.compare (N_of_ascii a) (N_of_ascii b).
Proof. reflexivity. Qed.

Lemma ascii_compare_Eq (a b : ascii) : Ascii.compare a b = Eq → a = b.
Proof.
  rewrite ascii_compare_N. intros Hc. apply N.compare_eq in Hc.
  rewrite <- (ascii_N_embedding a), <- (ascii_N_embedding b). by rewrite Hc.
Qed.

Lemma ascii_compare_refl (a : ascii) : Ascii.compare a a = Eq.
Proof. rewrite ascii_compare_N. apply N.compare_refl. Qed.

Lemma string_compare_refl (s : string) : String.compare s s = Eq.
Proof. induction s as [|a s IH]; simpl; [done|]. by rewrite ascii_compare_refl. Qed.

(** [compare] never answers [Gt] twice in a row along a chain. *)
Lemma string_compare_trans (s1 : string) :
  ∀ s2 s3, String.compare s1 s2 ≠ Gt → String.compare s2 s3 ≠ Gt →
           String.compare s1 s3 ≠ Gt.
Proof.
  induction s1 as [|a s1 IH]; intros [|b s2] [|c s3]; simpl; try done.
  rewrite !ascii_compare_N.
  destruct (N.compare_spec (N_of_ascii a) (N_of_ascii b)) as [Hab|Hab|Hab];
    destruct (N.compare_spec (N_of_ascii b) (N_of_ascii c)) as [Hbc|Hbc|Hbc];
    try done; intros H12 H23.
  - rewrite Hab, Hbc, N.compare_refl. by apply (IH s2).
  - rewrite Hab. by rewrite (proj2 (N.compare_lt_iff _ _) Hbc).
  - rewrite <- Hbc. by rewrite (proj2 (N.compare_lt_iff _ _) Hab).
  - by rewrite (proj2 (N.compare_lt_iff _ _) (N.lt_trans _ _ _ Hab Hbc)).
Qed.

Lemma string_le_compare (s1 s2 : string) : string_le s1 s2 ↔ String.compare s1 s2 ≠ Gt.
Proof.
  unfold string_le, String.leb. destruct (String.compare s1 s2); simpl; naive_solver.
Qed.

#[export] Instance string_le_refl : Reflexive string_le.
Proof. intros s. apply string_le_compare. by rewrite string_compare_refl. Qed.

#[export] Instance string_le_trans : Transitive string_le.
Proof.
  intros s1 s2 s3. rewrite !string_le_compare. apply string_compare_trans.
Qed.

#[export] Instance string_le_total : Total string_le.
Proof.
  intros s1 s2. unfold string_le.
  destruct (String.leb_total s1 s2) as [H|H]; rewrite H; naive_solver.
Qed.

#[export] Instance string_le_antisym : AntiSymm (=) string_le.
Proof.
  intros s1 s2 H1 H2. apply String.leb_antisym; by apply Is_true_true.
Qed.

(** [sort_Strings] returns the increasing rearrangement of its argument. *)
Lemma sort_Strings_sorted (a : list string) : Sorted string_le (sort_Strings a).
Proof. apply Sorted_merge_sort, _. Qed.

Lemma sort_Strings_perm (a : list string) : sort_Strings a ≡ₚ a.
Proof. apply merge_sort_Permutation. Qed.

(** There is one such rearrangement only, so the choice of the sorting
    algorithm does not show. *)
Lemma sort_Strings_unique (a l : list string) :
  Sorted string_le l → l ≡ₚ a → l = sort_Strings a.
Proof.
  intros Hs Hp.
  apply (Sorted_unique string_le); [done|apply sort_Strings_sorted|].
  by rewrite Hp, sort_Strings_perm.
Qed.

End StringsProofs.

Module UniqueProofs.
Import record CollectSpec StringsProofs.

Lemma dropRun_snoc (l : list string) : ∀ p x,
  dropRun p (l ++ [x]) =
    if decide (last (p :: l) = Some x) then dropRun p l else dropRun p l ++ [x].
Proof.
  induction l as [|y l IH]; intros p x.
  - cbn [app dropRun last]. repeat case_decide; naive_solver.
  - cbn [app dropRun]. rewrite !IH.
    change (last (p :: y :: l)) with (last (y :: l)).
    repeat case_decide; naive_solver.
Qed.

Lemma adjacentDedup_snoc (l : list string) (x : string) :
  adjacentDedup (l ++ [x]) =
    if decide (last l = Some x) then adjacentDedup l else adjacentDedup l ++ [x].
Proof.
  destruct l as [|p l].
  - cbn [app adjacentDedup dropRun last]. by case_decide.
  - cbn [app adjacentDedup]. rewrite dropRun_snoc. by case_decide.
Qed.

Lemma drop_succ_eq {A} (k : nat) (a b : list A) :
  drop k a = drop k b → drop (S k) a = drop (S k) b.
Proof.
  intros H. replace (S k) with (k + 1)%nat by lia.
  by rewrite <- !drop_drop, H.
Qed.

Section loop.
Variable arr0 : list string.

Lemma uniqueInv_step (k : nat) (st : list string * nat) :
  (S k < length arr0)%nat → uniqueInv arr0 k st →
  uniqueInv arr0 (S k) (uniqueStrings_body st (S k)).
Proof.
  destruct st as [arr j]. intros Hk (Hlen & Hlast & Htake & Hdrop & Hat).
  assert (His : is_Some (arr0 !! S k)) by (apply lookup_lt_is_Some; lia).
  destruct His as [x Hx].
  assert (Hk0 : is_Some (arr0 !! k)) by (apply lookup_lt_is_Some; lia).
  destruct Hk0 as [y Hy].
  assert (Hax : arr !! S k = Some x).
  { rewrite <- Hx. rewrite <- (Nat.add_0_r (S k)) at 1.
    rewrite <- (Nat.add_0_r (S k)) at 2.
    rewrite <- !lookup_drop. by rewrite Hdrop. }
  assert (Harr0 : take (S (S k)) arr0 = take (S k) arr0 ++ [x]).
  { by rewrite (take_S_r _ _ _ Hx). }
  assert (Hl0 : last (take (S k) arr0) = Some y).
  { rewrite (take_S_r _ _ _ Hy). apply last_snoc. }
  unfold uniqueStrings_body.
  rewrite (list_lookup_total_correct _ _ _ Hax).
  rewrite Hy in Hat. rewrite (list_lookup_total_correct _ _ _ Hat).
  destruct (decide (x = y)) as [->|Hne].
  - repeat split; [done|lia| |..].
    + rewrite Harr0, adjacentDedup_snoc, decide_True; done.
    + by apply drop_succ_eq.
    + by rewrite Hat, Hx.
  - assert (Hstep : adjacentDedup (take (S (S k)) arr0)
                    = adjacentDedup (take (S k) arr0) ++ [x]).
    { rewrite Harr0, adjacentDedup_snoc, decide_False; [done|].
      rewrite Hl0. by intros [= ->]. }
    destruct (decide (S j ≠ S k)) as [Hneq|Heq].
    + repeat split.
      * by rewrite length_insert.
      * lia.
      * rewrite Hstep, <- Htake.
        rewrite (take_S_r (<[S j:=x]> arr) (S j) x).
        -- by rewrite take_insert_ge by lia.
        -- apply list_lookup_insert_eq. lia.
      * apply drop_succ_eq. by rewrite drop_insert_lt by lia.
      * rewrite Hx. apply list_lookup_insert_eq. lia.
    + assert (j = k) as -> by lia.
      repeat split; [done|lia| | |].
      * rewrite Hstep, <- Htake. by rewrite (take_S_r _ _ _ Hax).
      * by apply drop_succ_eq.
      * by rewrite Hax, Hx.
Qed.

Lemma uniqueInv_loop (k : nat) :
  (k < length arr0)%nat →
  uniqueInv arr0 k (foldl uniqueStrings_body (arr0, 0%nat) (seq 1 k)).
Proof.
  induction k as [|k IH]; intros Hk.
  - simpl. destruct arr0 as [|x l]; [simpl in Hk; lia|].
    repeat split; simpl; done.
  - rewrite seq_S, foldl_app. simpl. apply uniqueInv_step; [done|]. apply IH. lia.
Qed.

End loop.

(** The in-place loop of [uniqueStrings] computes the removal of adjacent
    duplicates. *)
Lemma uniqueStrings_adjacentDedup (arr : list string) :
  uniqueStrings arr = adjacentDedup arr.
Proof.
  unfold uniqueStrings. destruct arr as [|x l]; [done|].
  pose proof (uniqueInv_loop (x :: l) (length (x :: l) - 1)) as Hinv.
  destruct (foldl uniqueStrings_body (x :: l, 0%nat) (seq 1 (length (x :: l) - 1)))
    as [arr j].
  destruct Hinv as (Hlen & Hlast & Htake & _); [simpl; lia|].
  rewrite decide_True by (simpl in *; lia).
  rewrite Htake. f_equal. apply take_ge. simpl. lia.
Qed.

Lemma dropRun_elem (l : list string) : ∀ p x, x ∈ dropRun p l → x ∈ l.
Proof.
  induction l as [|y l IH]; intros p x; simpl; [done|].
  case_decide as Hy.
  - intros Hx. right. by apply (IH p).
  - intros [->|Hx]%elem_of_cons; [left|right]. by apply (IH y).
Qed.

Lemma dropRun_keeps (l : list string) : ∀ p x, x ∈ l → x = p ∨ x ∈ dropRun p l.
Proof.
  induction l as [|y l IH]; intros p x; simpl.
  - by intros ?%elem_of_nil.
  - intros [->|Hx]%elem_of_cons; case_decide as Hy.
    + by left.
    + right. left.
    + destruct (IH p x Hx); auto.
    + destruct (IH y x Hx) as [->|?]; right; [left|by right].
Qed.

(** On a sorted slice the removal of adjacent duplicates leaves no duplicate
    at all, and loses no element. *)
Lemma adjacentDedup_sorted (l : list string) :
  Sorted string_le l →
  NoDup (adjacentDedup l) ∧ ∀ x, x ∈ adjacentDedup l ↔ x ∈ l.
Proof.
  intros Hs. apply (Sorted_StronglySorted _) in Hs. split.
  - destruct l as [|p l]; [constructor|]. simpl.
    revert p Hs. induction l as [|y l IH]; intros p Hs; simpl.
    + apply NoDup_singleton.
    + apply StronglySorted_inv in Hs as [Hs Hp].
      case_decide as Hy.
      * subst y. by apply IH.
      * pose proof (IH y Hs) as Hnd. constructor; [|done].
        intros [Heq|Hin]%elem_of_cons; [done|].
        apply dropRun_elem in Hin.
        apply StronglySorted_inv in Hs as [_ Hy'].
        apply Forall_cons in Hp as [Hpy _].
        rewrite Forall_forall in Hy'. apply Hy' in Hin.
        apply Hy. by apply (anti_symm string_le).
  - intros x. destruct l as [|p l]; [done|]. simpl. split.
    + intros [->|Hx]%elem_of_cons; [left|right]. by apply (dropRun_elem l p).
    + intros [->|Hx]%elem_of_cons; [left|].
      destruct (dropRun_keeps l p x Hx) as [->|?]; [left|by right].
Qed.
End UniqueProofs.

Module CollectProofs.
Import record CollectSpec.

Section run.
Context {W : Type} `{Env W} `{JSON}.

(** The inner loop hands every record to the recorder, whatever the answers,
    and appends one message for each refusal. *)
Lemma forwardRecords_run (records : list Record) : ∀ (errors : list string) (w : W),
  ∃ results,
    length results = length records
    ∧ resultOf (forwardRecords records errors w)
      = errors ++ recordFailures records results
    ∧ traceOf (forwardRecords records errors w) = forwardEvents records results.
Proof.
  induction records as [|r records IH]; intros errors w.
  - exists []. cbn. by rewrite app_nil_r.
  - cbn [forwardRecords]. unfold mbind, M_bind, recorderRecord.
    destruct (recorder_Record r w) as [res w1] eqn:Hrec.
    destruct res as [err|].
    + destruct (IH (errors ++ ["unable to record " +:+ Name r +:+ ": " +:+ Error err]) w1)
        as (results & Hlen & Hres & Htr).
      destruct (forwardRecords records _ w1) as [[errors' w2] tr].
      exists (Some err :: results). unfold resultOf, traceOf in *. cbn in *.
      rewrite Hres, Htr, <- app_assoc. auto.
    + destruct (IH errors w1) as (results & Hlen & Hres & Htr).
      destruct (forwardRecords records errors w1) as [[errors' w2] tr].
      exists (None :: results). unfold resultOf, traceOf in *. cbn in *.
      rewrite Hres, Htr. auto.
Qed.

(** The trace of the loop over the gather functions is made of rounds, one
    for each function reached, and the loop is left as [loopOutcome] says. *)
Lemma collectLoop_run (bulkFns : list (BulkFn W)) :
  ∀ (errors : list string) (gatherReport : list gatherStatusReport) (w : W),
  ∃ rounds,
    traceOf (collectLoop bulkFns errors gatherReport w) = rounds ≫= roundEvents
    ∧ Forall roundComplete rounds
    ∧ rd_name <$> rounds = fn_name <$> take (length rounds) bulkFns
    ∧ loopOutcome bulkFns errors gatherReport rounds
        (resultOf (collectLoop bulkFns errors gatherReport w)).
Proof.
  induction bulkFns as [|bulkFn bulkFns IH]; intros errors gatherReport w.
  - exists []. cbn. repeat split; try done.
    + by rewrite app_nil_r.
    + exists []. by rewrite app_nil_r.
  - cbn [collectLoop]. unfold mbind, M_bind, Now, call, ctxErr.
    destruct (time_Now w) as [start w1].
    destruct (fn_body bulkFn w1) as [[records errs] w2].
    destruct (time_Now w2) as [now w3].
    destruct (forwardRecords_run records (errors ++ (Error <$> errs)) w3)
      as (results & Hlen & Hres & Htr).
    destruct (forwardRecords records _ w3) as [[errors1 w4] tr1].
    unfold resultOf, traceOf in Hres, Htr. cbn in Hres, Htr. subst errors1 tr1.
    destruct (ctx_Err w4) as [check w5].
    set (rd := {| rd_name := fn_name bulkFn; rd_records := records; rd_errs := errs;
                  rd_results := results; rd_check := check |}).
    destruct check as [err|].
    + exists [rd]. unfold resultOf, traceOf. simpl.
      split_and!.
      * by rewrite !app_nil_r.
      * by repeat constructor.
      * done.
      * by exists [], rd.
    + match goal with
      | |- context [collectLoop bulkFns ?e ?g w5] =>
          destruct (IH e g w5) as (rounds & Htr & Hcompl & Hnames & Hout);
          destruct (collectLoop bulkFns e g w5) as [[r w6] tr] eqn:Hrun
      end.
      unfold resultOf, traceOf in Htr, Hout. simpl in Htr, Hout.
      exists (rd :: rounds). unfold resultOf, traceOf. simpl.
      split_and!.
      * rewrite Htr. unfold forwardEvents. by rewrite <- !app_assoc.
      * by constructor.
      * f_equal. exact Hnames.
      * destruct r as [err|[errors' gatherReport']]; simpl in Hout |- *.
        -- destruct Hout as (pre & rd' & -> & Hpre & Hlast).
           exists (rd :: pre), rd'. split_and!; [done| |done].
           by constructor.
        -- destruct Hout as (Hn & Hchecks & -> & entries & -> & Hentries).
           split_and!.
           ++ by rewrite Hn.
           ++ by constructor.
           ++ unfold roundErrors at 2. simpl. by rewrite <- !app_assoc.
           ++ eexists (_ :: entries). rewrite <- app_assoc. split; [done|].
              constructor; [|done]. by split_and!.
Qed.

(** Every run of [Collect] is a stopped run or a finished run. *)
Lemma Collect_run (bulkFns : list (BulkFn W)) (w : W) :
  ∃ rounds,
    Forall roundComplete rounds
    ∧ rd_name <$> rounds = fn_name <$> take (length rounds) bulkFns
    ∧ (stoppedRun rounds (Collect bulkFns w)
       ∨ finishedRun bulkFns rounds (Collect bulkFns w)).
Proof.
  destruct (collectLoop_run bulkFns [] [] w) as (rounds & Htr & Hcompl & Hnames & Hout).
  exists rounds. split_and!; [done..|].
  unfold Collect, mbind, M_bind.
  destruct (collectLoop bulkFns [] [] w) as [[r w1] tr].
  unfold resultOf, traceOf in Htr, Hout. simpl in Htr, Hout. subst tr.
  destruct r as [err|[errors gatherReport]]; simpl in Hout.
  - left. destruct Hout as (pre & rd & -> & Hpre & Hlast).
    exists pre, rd, err. unfold resultOf, traceOf. simpl.
    split_and!; rewrite ?app_nil_r; try done.
  - right. destruct Hout as (Hn & Hchecks & -> & entries & -> & Hentries).
    unfold recordGatherReport, recorderRecord.
    destruct (recorder_Record (gatherReportRecord entries) w1) as [res w2].
    split_and!; [done..|]. exists entries, res.
    unfold resultOf, traceOf. simpl. split_and!; [done| |].
    + by rewrite ?app_nil_r.
    + destruct res; simpl; by rewrite ?app_nil_r.
Qed.

(** Reading a trace made of rounds. *)
Lemma cancelled_app (tr1 tr2 : list Event) :
  cancelled (tr1 ++ tr2) = match cancelled tr1 with
                           | Some err => Some err
                           | None => cancelled tr2
                           end.
Proof.
  induction tr1 as [|ev tr1 IH]; [done|].
  destruct ev as [| |[err|]]; simpl; done.
Qed.

Lemma cancelled_forwardEvents (records : list Record) (results : list (option error)) :
  cancelled (forwardEvents records results) = None.
Proof.
  revert results. induction records as [|r records IH]; intros [|res results]; simpl; auto.
Qed.

Lemma cancelled_round (rd : Round) : cancelled (roundEvents rd) = rd_check rd.
Proof.
  unfold roundEvents. simpl. rewrite cancelled_app, cancelled_forwardEvents.
  simpl. by destruct (rd_check rd).
Qed.

Lemma cancelled_rounds_None (rounds : list Round) :
  Forall (λ rd, rd_check rd = None) rounds → cancelled (rounds ≫= roundEvents) = None.
Proof.
  induction 1 as [|rd rounds Hrd _ IH]; [done|].
  change ((rd :: rounds) ≫= roundEvents) with (roundEvents rd ++ (rounds ≫= roundEvents)).
  by rewrite cancelled_app, cancelled_round, Hrd.
Qed.

Lemma bind_snoc {A B} (f : A → list B) (l : list A) (x : A) :
  (l ++ [x]) ≫= f = (l ≫= f) ++ f x.
Proof. by rewrite bind_app, bind_singleton. Qed.

Lemma cancelled_stopped (pre : list Round) (rd : Round) (err : error) :
  Forall (λ rd, rd_check rd = None) pre → rd_check rd = Some err →
  cancelled ((pre ++ [rd]) ≫= roundEvents) = Some err.
Proof.
  intros Hpre Hrd.
  by rewrite bind_snoc, cancelled_app, cancelled_rounds_None, cancelled_round.
Qed.

Lemma gathersOf_forwardEvents (records : list Record) (results : list (option error)) :
  gathersOf (forwardEvents records results) = [].
Proof.
  revert results. induction records as [|r records IH]; intros [|res results]; simpl; auto.
Qed.

Lemma gathersOf_rounds (rounds : list Round) :
  gathersOf (rounds ≫= roundEvents) = rd_name <$> rounds.
Proof.
  induction rounds as [|rd rounds IH]; [done|].
  change ((rd :: rounds) ≫= roundEvents) with (roundEvents rd ++ (rounds ≫= roundEvents)).
  unfold gathersOf in *. rewrite bind_app, IH. unfold roundEvents.
  rewrite bind_cons, bind_app. fold (gathersOf (forwardEvents (rd_records rd) (rd_results rd))).
  by rewrite gathersOf_forwardEvents.
Qed.

Lemma gatheredOf_forwardEvents (records : list Record) (results : list (option error)) :
  gatheredOf (forwardEvents records results) = [].
Proof.
  revert results. induction records as [|r records IH]; intros [|res results]; simpl; auto.
Qed.

Lemma forwardedOf_forwardEvents (records : list Record) (results : list (option error)) :
  length results = length records →
  forwardedOf (forwardEvents records results) = records.
Proof.
  revert results. induction records as [|r records IH]; intros [|res results] Hlen;
    simpl in *; try done.
  f_equal. apply IH. lia.
Qed.

Lemma forwardedOf_rounds (rounds : list Round) :
  Forall roundComplete rounds →
  forwardedOf (rounds ≫= roundEvents) = rounds ≫= rd_records.
Proof.
  induction 1 as [|rd rounds Hrd _ IH]; [done|].
  change ((rd :: rounds) ≫= roundEvents) with (roundEvents rd ++ (rounds ≫= roundEvents)).
  unfold forwardedOf in *. rewrite bind_app, IH. unfold roundEvents.
  rewrite bind_cons, bind_app.
  fold (forwardedOf (forwardEvents (rd_records rd) (rd_results rd))).
  rewrite forwardedOf_forwardEvents by done. simpl. by rewrite app_nil_r.
Qed.

Lemma gatheredOf_rounds (rounds : list Round) :
  gatheredOf (rounds ≫= roundEvents) = rounds ≫= rd_records.
Proof.
  induction rounds as [|rd rounds IH]; [done|].
  change ((rd :: rounds) ≫= roundEvents) with (roundEvents rd ++ (rounds ≫= roundEvents)).
  unfold gatheredOf in *. rewrite bind_app, IH. unfold roundEvents.
  rewrite bind_cons, bind_app.
  fold (gatheredOf (forwardEvents (rd_records rd) (rd_results rd))).
  rewrite gatheredOf_forwardEvents. simpl. by rewrite app_nil_r.
Qed.

Lemma loopErrorsOf_forwardEvents (records : list Record) (results : list (option error)) :
  loopErrorsOf (forwardEvents records results) = recordFailures records results.
Proof.
  revert results. induction records as [|r records IH]; intros [|res results]; simpl; auto.
  unfold recordFailures. simpl. f_equal. apply IH.
Qed.

Lemma loopErrorsOf_rounds (rounds : list Round) :
  loopErrorsOf (rounds ≫= roundEvents) = rounds ≫= roundErrors.
Proof.
  induction rounds as [|rd rounds IH]; [done|].
  change ((rd :: rounds) ≫= roundEvents) with (roundEvents rd ++ (rounds ≫= roundEvents)).
  unfold loopErrorsOf in *. rewrite bind_app, IH. unfold roundEvents.
  rewrite bind_cons, bind_app.
  fold (loopErrorsOf (forwardEvents (rd_records rd) (rd_results rd))).
  rewrite loopErrorsOf_forwardEvents. simpl. unfold roundErrors.
  by rewrite app_nil_r.
Qed.

End run.

Section twin.
Context {W : Type} (E : Env W) `{JSON}.

Lemma forwardRecords_twin (records : list Record) : ∀ (errors errors' : list string) (w : W),
  (@forwardRecords W (neverRefusing E) records errors' w).1.2
  = (@forwardRecords W E records errors w).1.2
  ∧ traceOf (@forwardRecords W (neverRefusing E) records errors' w)
    = eraseAnswer <$> traceOf (@forwardRecords W E records errors w)
  ∧ resultOf (@forwardRecords W (neverRefusing E) records errors' w) = errors'.
Proof.
  induction records as [|r records IH]; intros errors errors' w; [done|].
  cbn [forwardRecords]. unfold mbind, M_bind, recorderRecord. simpl.
  destruct (recorder_Record r w) as [res w1]. simpl.
  destruct res as [err|].
  - destruct (IH (errors ++ ["unable to record " +:+ Name r +:+ ": " +:+ Error err])
                errors' w1) as (Hw & Htr & Hres).
    destruct (@forwardRecords W E records _ w1) as [[e1 w2] tr].
    destruct (@forwardRecords W (neverRefusing E) records errors' w1) as [[e1' w2'] tr'].
    unfold traceOf, resultOf in *. simpl in *. by subst.
  - destruct (IH errors errors' w1) as (Hw & Htr & Hres).
    destruct (@forwardRecords W E records errors w1) as [[e1 w2] tr].
    destruct (@forwardRecords W (neverRefusing E) records errors' w1) as [[e1' w2'] tr'].
    unfold traceOf, resultOf in *. simpl in *. by subst.
Qed.

Lemma collectLoop_twin (bulkFns : list (BulkFn W)) :
  ∀ (errors errors' : list string) (gatherReport : list gatherStatusReport) (w : W),
  (@collectLoop W (neverRefusing E) bulkFns errors' gatherReport w).1.2
  = (@collectLoop W E bulkFns errors gatherReport w).1.2
  ∧ traceOf (@collectLoop W (neverRefusing E) bulkFns errors' gatherReport w)
    = eraseAnswer <$> traceOf (@collectLoop W E bulkFns errors gatherReport w)
  ∧ sameExit (resultOf (@collectLoop W E bulkFns errors gatherReport w))
      (resultOf (@collectLoop W (neverRefusing E) bulkFns errors' gatherReport w)).
Proof.
  induction bulkFns as [|bulkFn bulkFns IH]; intros errors errors' gatherReport w; [done|].
  cbn [collectLoop]. unfold mbind, M_bind, Now, call, ctxErr. simpl.
  destruct (time_Now w) as [start w1].
  destruct (fn_body bulkFn w1) as [[records errs] w2].
  destruct (time_Now w2) as [now w3].
  destruct (forwardRecords_twin records (errors ++ (Error <$> errs))
              (errors' ++ (Error <$> errs)) w3) as (Hw & Htr & _).
  destruct (@forwardRecords W E records _ w3) as [[e1 w4] tr].
  destruct (@forwardRecords W (neverRefusing E) records _ w3) as [[e1' w4'] tr'].
  unfold traceOf in Htr. simpl in Hw, Htr. subst w4' tr'.
  destruct (ctx_Err w4) as [[err|] w5].
  - unfold traceOf, resultOf. simpl. split_and!; [done| |done].
    by rewrite !fmap_app.
  - match goal with
    | |- context [@collectLoop W E bulkFns ?e ?g w5] =>
        match goal with
        | |- context [@collectLoop W (neverRefusing E) bulkFns ?e' g w5] =>
            destruct (IH e e' g w5) as (Hw' & Htr' & Hexit);
            destruct (@collectLoop W E bulkFns e g w5) as [[r w6] tr1];
            destruct (@collectLoop W (neverRefusing E) bulkFns e' g w5) as [[r' w6'] tr1']
        end
    end.
    unfold traceOf, resultOf in *. simpl in *. subst. split_and!; [done| |done].
    f_equal. symmetry. apply (fmap_app eraseAnswer tr (EvCtxErr None :: tr1)).
Qed.

(** The recorder's answers steer nothing: with a recorder that takes the
    same records and never refuses, [Collect] makes the same calls in the
    same order and leaves the world in the same state, in every run. *)
Lemma Collect_twin (bulkFns : list (BulkFn W)) (w : W) :
  (@Collect W (neverRefusing E) _ bulkFns w).1.2 = (@Collect W E _ bulkFns w).1.2
  ∧ traceOf (@Collect W (neverRefusing E) _ bulkFns w)
    = eraseAnswer <$> traceOf (@Collect W E _ bulkFns w).
Proof.
  unfold Collect, mbind, M_bind.
  destruct (collectLoop_twin bulkFns [] [] [] w) as (Hw & Htr & Hexit).
  destruct (@collectLoop W E bulkFns [] [] w) as [[r w1] tr].
  destruct (@collectLoop W (neverRefusing E) bulkFns [] [] w) as [[r' w1'] tr'].
  unfold traceOf, resultOf in *. simpl in *. subst.
  destruct r as [err|[errors gatherReport]], r' as [err'|[errors' gatherReport']];
    simpl in Hexit; try done.
  - simpl. by rewrite !fmap_app.
  - subst. unfold recordGatherReport, recorderRecord. simpl.
    destruct (recorder_Record (gatherReportRecord gatherReport') w1) as [res w2].
    simpl. split; [done|]. by rewrite !fmap_app.
Qed.

End twin.
End CollectProofs.

Module CollectTheorems.
Import record CollectSpec StringsProofs UniqueProofs CollectProofs Scenario.

Lemma aggregate_spec (errors : list string) :
  aggregate errors =
    match errors with
    | [] => None
    | _ => Some (Errorf (strings_Join (adjacentDedup (sort_Strings errors)) ", "))
    end.
Proof.
  unfold aggregate. destruct errors as [|e errors]; [done|].
  rewrite decide_True by (simpl; lia). by rewrite uniqueStrings_adjacentDedup.
Qed.

Section claims.
Context {W : Type} {E : Env W} `{JSON}.

(** A run in which no context check returned an error is a finished run. *)
Lemma Collect_finished (bulkFns : list (BulkFn W)) (w : W) :
  cancelled (traceOf (Collect bulkFns w)) = None →
  ∃ rounds,
    Forall roundComplete rounds
    ∧ rd_name <$> rounds = fn_name <$> bulkFns
    ∧ finishedRun bulkFns rounds (Collect bulkFns w).
Proof.
  intros Hc.
  destruct (Collect_run bulkFns w) as (rounds & Hcompl & Hnames & [Hstop|Hfin]).
  - destruct Hstop as (pre & rd & err & -> & Hpre & Hrd & Htr & _).
    rewrite Htr, (cancelled_stopped pre rd err) in Hc; done.
  - exists rounds. split_and!; [done| |done].
    destruct Hfin as (Hn & _). by rewrite Hnames, Hn, firstn_all.
Qed.

(** C1, as amended: when no context check cuts the run short, Collect
    returns no error if the accumulated list of messages (those of the loop,
    then the one for a refused report) is empty, and otherwise one error
    whose message is that list sorted increasingly, adjacent duplicates
    removed, joined with [", "]; the in-place loop of [uniqueStrings] is this
    removal, which on the sorted list leaves no duplicate at all. *)
Theorem Collect_aggregates_errors (bulkFns : list (BulkFn W)) (w : W) :
  cancelled (traceOf (Collect bulkFns w)) = None →
  ∃ tr report res sorted,
    traceOf (Collect bulkFns w) = tr ++ [EvRecord (gatherReportRecord report) res]
    ∧ Sorted string_le sorted
    ∧ sorted ≡ₚ loopErrorsOf tr ++ reportFailure res
    ∧ (loopErrorsOf tr ++ reportFailure res = [] →
       resultOf (Collect bulkFns w) = None)
    ∧ (loopErrorsOf tr ++ reportFailure res ≠ [] →
       resultOf (Collect bulkFns w)
       = Some (Errorf (strings_Join (adjacentDedup sorted) ", ")))
    ∧ uniqueStrings sorted = adjacentDedup sorted
    ∧ NoDup (adjacentDedup sorted)
    ∧ uniqueStrings (sort_Strings ["b"; "a"; "a"; "c"]) = ["a"; "b"; "c"].
Proof.
  intros Hc. destruct (Collect_finished bulkFns w Hc) as (rounds & _ & _ & Hfin).
  destruct Hfin as (_ & _ & report & res & _ & Htr & Hres).
  exists (rounds ≫= roundEvents), report, res.
  exists (sort_Strings ((rounds ≫= roundErrors) ++ reportFailure res)).
  rewrite loopErrorsOf_rounds, Hres, aggregate_spec.
  split_and!; [done|apply sort_Strings_sorted|apply sort_Strings_perm|..].
  - by intros ->.
  - intros Hne. by destruct ((rounds ≫= roundErrors) ++ reportFailure res).
  - apply uniqueStrings_adjacentDedup.
  - apply adjacentDedup_sorted, sort_Strings_sorted.
  - reflexivity.
Qed.

(** C2: when a context check returns an error, Collect returns that very
    error; the check is the last thing the run does; the gather functions
    called are those up to the one just processed and none after it; and the
    recorder has been handed the records of those functions and nothing
    else, so no report. *)
Theorem Collect_cancellation (bulkFns : list (BulkFn W)) (w : W) (err : error) :
  cancelled (traceOf (Collect bulkFns w)) = Some err →
  resultOf (Collect bulkFns w) = Some err
  ∧ (∃ tr, traceOf (Collect bulkFns w) = tr ++ [EvCtxErr (Some err)]
           ∧ cancelled tr = None)
  ∧ (∃ pre bulkFn rest,
       bulkFns = pre ++ bulkFn :: rest
       ∧ gathersOf (traceOf (Collect bulkFns w)) = fn_name <$> (pre ++ [bulkFn]))
  ∧ (∃ rounds, Forall roundComplete rounds
               ∧ traceOf (Collect bulkFns w) = rounds ≫= roundEvents)
  ∧ forwardedOf (traceOf (Collect bulkFns w)) = gatheredOf (traceOf (Collect bulkFns w)).
Proof.
  intros Hc.
  destruct (Collect_run bulkFns w) as (rounds & Hcompl & Hnames & [Hstop|Hfin]).
  - destruct Hstop as (pre & rd & err' & -> & Hpre & Hrd & Htr & Hres).
    rewrite Htr, (cancelled_stopped pre rd err') in Hc by done.
    injection Hc as ->. rewrite Htr. split_and!.
    + done.
    + exists ((pre ≫= roundEvents)
              ++ EvGather (rd_name rd) (rd_records rd) (rd_errs rd)
                 :: forwardEvents (rd_records rd) (rd_results rd)).
      split.
      * rewrite bind_snoc. unfold roundEvents at 2. rewrite Hrd.
        by rewrite <- app_assoc.
      * rewrite cancelled_app, cancelled_rounds_None by done.
        simpl. apply cancelled_forwardEvents.
    + rewrite gathersOf_rounds, Hnames.
      assert (Hle : (length (pre ++ [rd]) ≤ length bulkFns)%nat).
      { apply (f_equal length) in Hnames. rewrite !length_fmap, length_take in Hnames. lia. }
      rewrite length_app in Hle. simpl in Hle.
      destruct (lookup_lt_is_Some_2 bulkFns (length pre)) as [bulkFn Hfn]; [lia|].
      exists (take (length pre) bulkFns), bulkFn, (drop (S (length pre)) bulkFns).
      split.
      * by rewrite <- (take_drop_middle _ _ _ Hfn) at 1.
      * rewrite length_app. simpl.
        replace (length pre + 1)%nat with (S (length pre)) by lia.
        by rewrite (take_S_r _ _ _ Hfn).
    + by exists (pre ++ [rd]).
    + by rewrite forwardedOf_rounds, gatheredOf_rounds.
  - destruct Hfin as (_ & Hchecks & report & res & _ & Htr & _).
    rewrite Htr, cancelled_app, cancelled_rounds_None in Hc; done.
Qed.


(** One message for each refusal and none otherwise. *)
Lemma recordFailures_length (records : list Record) (results : list (option error)) :
  length results = length records →
  length (recordFailures records results) = length (filter is_Some results).
Proof.
  revert results. induction records as [|r records IH]; intros [|res results] Hlen;
    simpl in Hlen; try done.
  unfold recordFailures. cbn [zip_with concat].
  fold (recordFailures records results).
  rewrite length_app, filter_cons, IH by lia.
  destruct res as [err|]; case_decide as Hd; simpl; try done.
  exfalso. eauto.
Qed.

(** C3: a refusal by the recorder is not fatal. In every run Collect makes
    the calls it would make with a recorder that never refuses, and leaves
    the world as it would then. The trace is made of complete rounds, one
    for each gather function reached, in order: in each, every record the
    function returned is handed to the recorder whatever the recorder
    answered before, and the messages of the round are those of the
    function's errors followed by one ["unable to record <name>: ..."] for
    each record refused. Unless a context check returns an error (the one
    early exit), every gather function has its round and the report is
    handed to the recorder last. *)
Theorem Collect_recorder_failure_not_fatal (bulkFns : list (BulkFn W)) (w : W) :
  (@Collect W (neverRefusing E) _ bulkFns w).1.2 = (Collect bulkFns w).1.2
  ∧ traceOf (@Collect W (neverRefusing E) _ bulkFns w)
    = eraseAnswer <$> traceOf (Collect bulkFns w)
  ∧ ∃ rounds tail,
      traceOf (Collect bulkFns w) = (rounds ≫= roundEvents) ++ tail
      ∧ Forall roundComplete rounds
      ∧ rd_name <$> rounds = fn_name <$> take (length rounds) bulkFns
      ∧ Forall (λ rd, length (recordFailures (rd_records rd) (rd_results rd))
                      = length (filter is_Some (rd_results rd))) rounds
      ∧ match cancelled (traceOf (Collect bulkFns w)) with
        | Some err => tail = [] ∧ resultOf (Collect bulkFns w) = Some err
        | None =>
            length rounds = length bulkFns
            ∧ ∃ report res,
                tail = [EvRecord (gatherReportRecord report) res]
                ∧ forwardedOf (traceOf (Collect bulkFns w))
                  = (rounds ≫= rd_records) ++ [gatherReportRecord report]
                ∧ resultOf (Collect bulkFns w)
                  = aggregate ((rounds ≫= roundErrors) ++ reportFailure res)
        end.
Proof.
  destruct (Collect_twin E bulkFns w) as [Hworld Htwin].
  split_and!; [done..|].
  destruct (Collect_run bulkFns w) as (rounds & Hcompl & Hnames & [Hstop|Hfin]).
  - destruct Hstop as (pre & rd & err & -> & Hpre & Hrd & Htr & Hres).
    exists (pre ++ [rd]), []. rewrite Htr, app_nil_r, Hres.
    rewrite (cancelled_stopped pre rd err) by done.
    split_and!; try done.
    eapply Forall_impl; [exact Hcompl|]. intros rd' Hrd'.
    by apply recordFailures_length.
  - destruct Hfin as (Hn & Hchecks & report & res & _ & Htr & Hres).
    exists rounds, [EvRecord (gatherReportRecord report) res]. rewrite Htr.
    rewrite cancelled_app, cancelled_rounds_None by done. simpl.
    split_and!; try done.
    + eapply Forall_impl; [exact Hcompl|]. intros rd' Hrd'.
      by apply recordFailures_length.
    + exists report, res. split_and!; [done| |done].
      unfold forwardedOf. rewrite bind_app. fold (forwardedOf (rounds ≫= roundEvents)).
      by rewrite forwardedOf_rounds.
Qed.

(** C4: in a run that no context check cuts short, the report holds one
    entry for each gather function, in the order of the functions, with the
    function's name, the number of records and the errors it returned; a
    record named ["insights-operator/gathers"] that marshals this report as
    JSON is handed to the recorder once, as the last call of the run; and a
    refusal of it adds its message to the accumulated ones, from which the
    result is then made. *)
Theorem Collect_gather_report (bulkFns : list (BulkFn W)) (w : W) :
  cancelled (traceOf (Collect bulkFns w)) = None →
  ∃ rounds report res,
    length report = length bulkFns
    ∧ gsr_Name <$> report = fn_name <$> bulkFns
    ∧ Forall roundComplete rounds
    ∧ Forall2 entryOf rounds report
    ∧ traceOf (Collect bulkFns w)
      = (rounds ≫= roundEvents) ++ [EvRecord (gatherReportRecord report) res]
    ∧ forwardedOf (rounds ≫= roundEvents) = gatheredOf (rounds ≫= roundEvents)
    ∧ Name (gatherReportRecord report) = "insights-operator/gathers"
    ∧ ItemExtension (gatherReportRecord report) = "json"
    ∧ ItemMarshal (gatherReportRecord report) () = json_Marshal report
    ∧ resultOf (Collect bulkFns w)
      = aggregate ((rounds ≫= roundErrors) ++ reportFailure res).
Proof.
  intros Hc. destruct (Collect_finished bulkFns w Hc) as (rounds & Hcompl & Hnames & Hfin).
  destruct Hfin as (Hn & _ & report & res & Hentries & Htr & Hres).
  exists rounds, report, res. rewrite Htr.
  assert (Hreport : gsr_Name <$> report = rd_name <$> rounds).
  { clear -Hentries. induction Hentries as [|rd e rounds report (Hname & _) _ IH]; [done|].
    rewrite !fmap_cons. by rewrite Hname, IH. }
  split_and!.
  - by rewrite <- (Forall2_length _ _ _ Hentries).
  - by rewrite Hreport.
  - done.
  - done.
  - done.
  - by rewrite forwardedOf_rounds, gatheredOf_rounds.
  - done.
  - done.
  - done.
  - done.
Qed.

End claims.

(** The properties above at work on the scripted world. *)

(** Two records, then an error ["x"], with a recorder that takes everything:
    the recorder ends up with the two records and the report, and the error
    returned says ["x"]. *)
Example two_records_then_error :
  let run := Collect [twoRecordsFn; failingFn] (start [] false) in
  resultOf run = Some (errorString "x")
  ∧ Name <$> stored run.1.2 = ["config/a"; "config/b"; "insights-operator/gathers"].
Proof. vm_compute. done. Qed.

(** A recorder that refuses everything: one message for each record and one
    for the report. *)
Example recorder_always_fails :
  resultOf (Collect [twoRecordsFn; quietFn] (start [] true))
  = Some (errorString
      "unable to record config/a: sink is down, unable to record config/b: sink is down, unable to record io status reports: sink is down").
Proof. vm_compute. done. Qed.

Lemma Collect_aggregates_errors_witness :
  let run := Collect [twoRecordsFn; failingFn] (start [] false) in
  cancelled (traceOf run) = None
  ∧ ∃ tr report res sorted,
      traceOf run = tr ++ [EvRecord (gatherReportRecord report) res]
      ∧ Sorted string_le sorted
      ∧ sorted ≡ₚ loopErrorsOf tr ++ reportFailure res
      ∧ (loopErrorsOf tr ++ reportFailure res = [] → resultOf run = None)
      ∧ (loopErrorsOf tr ++ reportFailure res ≠ [] →
         resultOf run = Some (Errorf (strings_Join (adjacentDedup sorted) ", ")))
      ∧ uniqueStrings sorted = adjacentDedup sorted
      ∧ NoDup (adjacentDedup sorted)
      ∧ uniqueStrings (sort_Strings ["b"; "a"; "a"; "c"]) = ["a"; "b"; "c"].
Proof.
  intros run. split; [vm_compute; reflexivity|].
  apply Collect_aggregates_errors. vm_compute; reflexivity.
Defined.

(** A cancelled run with nothing accumulated returns an error all the same,
    and one with the message ["x"] accumulated returns the context's error,
    not an error saying ["x"]. *)
Lemma cancelled_run_skips_aggregation :
  (let run := Collect [quietFn] (start [Some Canceled] false) in
   traceOf run = [EvGather "quiet" [] []; EvCtxErr (Some Canceled)]
   ∧ loopErrorsOf (traceOf run) = []
   ∧ resultOf run ≠ None)
  ∧ (let run := Collect [failingFn] (start [Some Canceled] false) in
     traceOf run = [EvGather "failing" [] [errorString "x"]; EvCtxErr (Some Canceled)]
     ∧ loopErrorsOf (traceOf run) = ["x"]
     ∧ resultOf run = Some Canceled
     ∧ resultOf run ≠ Some (Errorf "x")).
Proof. vm_compute. split_and!; done. Qed.

Lemma Collect_cancellation_witness :
  let bulkFns := [twoRecordsFn; failingFn] in
  let run := Collect bulkFns (start [Some Canceled] false) in
  cancelled (traceOf run) = Some Canceled
  ∧ resultOf run = Some Canceled
  ∧ (∃ tr, traceOf run = tr ++ [EvCtxErr (Some Canceled)] ∧ cancelled tr = None)
  ∧ (∃ pre bulkFn rest,
       bulkFns = pre ++ bulkFn :: rest
       ∧ gathersOf (traceOf run) = fn_name <$> (pre ++ [bulkFn]))
  ∧ (∃ rounds, Forall roundComplete rounds ∧ traceOf run = rounds ≫= roundEvents)
  ∧ forwardedOf (traceOf run) = gatheredOf (traceOf run).
Proof.
  intros bulkFns run. split; [vm_compute; reflexivity|].
  apply Collect_cancellation. vm_compute; reflexivity.
Defined.

(** With a recorder that refuses everything and a context that never
    reports an error, both gather functions run, both records and the report
    are handed over, and every refusal has its message. *)
Lemma Collect_recorder_failure_not_fatal_witness :
  let bulkFns := [twoRecordsFn; failingFn] in
  let run := Collect bulkFns (start [] true) in
  cancelled (traceOf run) = None
  ∧ (@Collect World (neverRefusing ScriptedEnv) _ bulkFns (start [] true)).1.2 = run.1.2
  ∧ traceOf (@Collect World (neverRefusing ScriptedEnv) _ bulkFns (start [] true))
    = eraseAnswer <$> traceOf run
  ∧ ∃ rounds tail,
      traceOf run = (rounds ≫= roundEvents) ++ tail
      ∧ Forall roundComplete rounds
      ∧ rd_name <$> rounds = fn_name <$> take (length rounds) bulkFns
      ∧ Forall (λ rd, length (recordFailures (rd_records rd) (rd_results rd))
                      = length (filter is_Some (rd_results rd))) rounds
      ∧ length rounds = length bulkFns
      ∧ ∃ report res,
          tail = [EvRecord (gatherReportRecord report) res]
          ∧ forwardedOf (traceOf run)
            = (rounds ≫= rd_records) ++ [gatherReportRecord report]
          ∧ resultOf run = aggregate ((rounds ≫= roundErrors) ++ reportFailure res).
Proof.
  intros bulkFns run. split; [vm_compute; reflexivity|].
  exact (Collect_recorder_failure_not_fatal bulkFns (start [] true)).
Defined.

Lemma Collect_gather_report_witness :
  let bulkFns := [twoRecordsFn; failingFn] in
  let run := Collect bulkFns (start [] false) in
  cancelled (traceOf run) = None
  ∧ ∃ rounds report res,
      length report = length bulkFns
      ∧ gsr_Name <$> report = fn_name <$> bulkFns
      ∧ Forall roundComplete rounds
      ∧ Forall2 entryOf rounds report
      ∧ traceOf run
        = (rounds ≫= roundEvents) ++ [EvRecord (gatherReportRecord report) res]
      ∧ forwardedOf (rounds ≫= roundEvents) = gatheredOf (rounds ≫= roundEvents)
      ∧ Name (gatherReportRecord report) = "insights-operator/gathers"
      ∧ ItemExtension (gatherReportRecord report) = "json"
      ∧ ItemMarshal (gatherReportRecord report) () = json_Marshal report
      ∧ resultOf run = aggregate ((rounds ≫= roundErrors) ++ reportFailure res).
Proof.
  intros bulkFns run. split; [vm_compute; reflexivity|].
  apply Collect_gather_report. vm_compute; reflexivity.
Defined.

End CollectTheorems.

Module AnonymizeProofs.
Import record configv1 corev1 clusterconfig ClusterSpec.

Lemma prefix_app (substr s : string) :
  String.prefix substr s = true ↔ ∃ after, s = substr +:+ after.
Proof.
  revert s. induction substr as [|a substr IH]; intros s.
  - simpl. split; [|by destruct s]. intros _. by exists s.
  - destruct s as [|b s]; simpl.
    + split; [done|]. by intros [after ?].
    + destruct (Ascii.ascii_dec a b) as [->|Hne].
      * rewrite IH. split; intros [after Hafter]; exists after.
        -- simpl. by rewrite Hafter.
        -- simpl in Hafter. by injection Hafter.
      * split; [done|]. intros [after Hafter]. simpl in Hafter.
        injection Hafter as ? _. done.
Qed.

Lemma strings_Contains_unfold (s substr : string) :
  strings_Contains s substr
  = if String.prefix substr s then true
    else match s with
         | EmptyString => false
         | String _ s' => strings_Contains s' substr
         end.
Proof. by destruct s. Qed.

(** [strings_Contains] finds exactly the strings that have [substr] somewhere
    inside. *)
Lemma strings_Contains_spec (s substr : string) :
  strings_Contains s substr = true ↔ containsSegment s substr.
Proof.
  unfold containsSegment. induction s as [|a s IH].
  - rewrite strings_Contains_unfold. destruct (String.prefix substr "") eqn:Hp.
    + split; [|done]. intros _. apply prefix_app in Hp as [after Hafter].
      by exists "", after.
    + split; [done|]. intros ([|??] & after & Heq); [|done].
      simpl in Heq. assert (String.prefix substr "" = true) as Hp'.
      { apply prefix_app. by exists after. }
      congruence.
  - rewrite strings_Contains_unfold.
    destruct (String.prefix substr (String a s)) eqn:Hp.
    + split; [|done]. intros _. apply prefix_app in Hp as [after Hafter].
      by exists "", after.
    + rewrite IH. split.
      * intros (before & after & ->). by exists (String a before), after.
      * intros ([|b before] & after & Heq).
        -- simpl in Heq. assert (String.prefix substr (String a s) = true) as Hp'.
           { apply prefix_app. by exists after. }
           congruence.
        -- injection Heq as -> ->. by exists before, after.
Qed.

Lemma isProductNamespacedKey_spec (key : string) :
  isProductNamespacedKey key = true
  ↔ ∃ segment, segment ∈ trustedSegments ∧ containsSegment key segment.
Proof.
  unfold isProductNamespacedKey, trustedSegments.
  rewrite !orb_true_iff, !strings_Contains_spec. split.
  - intros [[Hc|Hc]|Hc]; eexists; (split; [|exact Hc]); set_solver.
  - intros (segment & Hin & Hc).
    apply elem_of_cons in Hin as [->|Hin]; [by left; left|].
    apply elem_of_cons in Hin as [->|Hin]; [by left; right|].
    apply list_elem_of_singleton in Hin as ->. by right.
Qed.

Lemma strings_Repeat_length (c : ascii) (count : nat) :
  String.length (strings_Repeat (String c "") count) = count.
Proof. induction count as [|count IH]; simpl; [done|]. f_equal. exact IH. Qed.

Lemma strings_Repeat_get (c : ascii) (count n : nat) (d : ascii) :
  String.get n (strings_Repeat (String c "") count) = Some d → d = c.
Proof.
  revert n. induction count as [|count IH]; intros n; simpl; [done|].
  destruct n as [|n]; [by intros [= ->]|]. apply IH.
Qed.

(** A [range] loop that overwrites, under every key not kept, the value by a
    function of it, seen key by key. *)
Lemma map_fold_overwrite (keep : string → bool) (g : string → string)
    (m base : gmap string string) (k : string) :
  map_fold (λ k v acc, if keep k then acc else <[k := g v]> acc) base m !! k
  = match m !! k with
    | Some v => if keep k then base !! k else Some (g v)
    | None => base !! k
    end.
Proof.
  revert k. apply (map_fold_weak_ind (λ r m, ∀ k, r !! k = match m !! k with
    | Some v => if keep k then base !! k else Some (g v)
    | None => base !! k end)).
  - intros k. by rewrite lookup_empty.
  - intros i x m' r Hi IH k. destruct (decide (i = k)) as [->|Hne].
    + rewrite lookup_insert_eq. destruct (keep k) eqn:Hk.
      * by rewrite IH, Hi.
      * by rewrite lookup_insert_eq.
    + rewrite (lookup_insert_ne m') by done.
      destruct (keep i); [apply IH|]. rewrite lookup_insert_ne by done. apply IH.
Qed.

Lemma anonymizeAnnotations_lookup (annotations : gmap string string) (k : string) :
  anonymizeAnnotations annotations !! k
  = (λ v, if isProductNamespacedKey k then v else "") <$> annotations !! k.
Proof.
  unfold anonymizeAnnotations.
  rewrite (map_fold_overwrite isProductNamespacedKey (λ _, "")).
  destruct (annotations !! k) eqn:Hk; simpl; [|done].
  by destruct (isProductNamespacedKey k).
Qed.

Lemma anonymizeLabels_lookup (labels : gmap string string) (k : string) :
  anonymizeLabels labels !! k
  = (λ v, if isProductNamespacedKey k then v else anonymizeString v) <$> labels !! k.
Proof.
  unfold anonymizeLabels.
  rewrite (map_fold_overwrite isProductNamespacedKey anonymizeString).
  destruct (labels !! k) eqn:Hk; simpl; [|done].
  by destruct (isProductNamespacedKey k).
Qed.

Lemma dom_of_lookup_fmap (f : string → string → string) (m m' : gmap string string) :
  (∀ k, m' !! k = f k <$> m !! k) → dom m' = dom m.
Proof.
  intros Hl. apply set_eq. intros k. rewrite !elem_of_dom, Hl.
  by rewrite fmap_is_Some.
Qed.

(** C8: [anonymizeNode] leaves the keys of the annotations and of the labels
    as they are; under a key that contains one of the trusted segments the
    value stays; under any other key an annotation becomes the empty string
    and a label becomes as many ["x"] as it had bytes. *)
Theorem anonymizeNode_keys_and_values `{External} (node : Node) :
  dom (node_Annotations (anonymizeNode node)) = dom (node_Annotations node)
  ∧ dom (node_Labels (anonymizeNode node)) = dom (node_Labels node)
  ∧ (∀ k, node_Annotations (anonymizeNode node) !! k
          = (λ v, if isProductNamespacedKey k then v else "")
              <$> node_Annotations node !! k)
  ∧ (∀ k, node_Labels (anonymizeNode node) !! k
          = (λ v, if isProductNamespacedKey k then v else anonymizeString v)
              <$> node_Labels node !! k)
  ∧ (∀ k, isProductNamespacedKey k = true
          ↔ ∃ segment, segment ∈ trustedSegments ∧ containsSegment k segment)
  ∧ (∀ v, String.length (anonymizeString v) = String.length v
          ∧ ∀ n c, String.get n (anonymizeString v) = Some c → c = "x"%char).
Proof.
  split_and!.
  - apply (dom_of_lookup_fmap (λ k v, if isProductNamespacedKey k then v else "")).
    apply anonymizeAnnotations_lookup.
  - apply (dom_of_lookup_fmap
             (λ k v, if isProductNamespacedKey k then v else anonymizeString v)).
    apply anonymizeLabels_lookup.
  - apply anonymizeAnnotations_lookup.
  - apply anonymizeLabels_lookup.
  - apply isProductNamespacedKey_spec.
  - intros v. split.
    + apply strings_Repeat_length.
    + intros n c. apply strings_Repeat_get.
Qed.

End AnonymizeProofs.

Module GatherProofs.
Import record configv1 corev1 clusterconfig CollectSpec ClusterSpec Scenario ClusterScenario.

(** *** Health predicates *)

Lemma isHealthyOperator_conditions_spec (conditions : list ClusterOperatorStatusCondition) :
  isHealthyOperator_conditions conditions = false
  ↔ ∃ condition, condition ∈ conditions ∧ degradedOrUnavailable condition.
Proof.
  unfold degradedOrUnavailable.
  induction conditions as [|c conditions IH]; simpl.
  - split; [done|]. intros (? & Hin & _). by apply elem_of_nil in Hin.
  - destruct (_ || _) eqn:Hc.
    + split; [|done]. intros _. exists c. split; [left|].
      apply orb_true_iff in Hc as [Hc|Hc]; apply andb_true_iff in Hc as [H1 H2];
        apply String.eqb_eq in H1, H2; [by left|by right].
    + rewrite IH. split.
      * intros (c' & Hin & Hc'). exists c'. split; [by right|done].
      * intros (c' & Hin & Hc'). apply elem_of_cons in Hin as [->|Hin]; [|by exists c'].
        exfalso. apply orb_false_iff in Hc as [H1 H2].
        destruct Hc' as [[Ht Hs]|[Ht Hs]]; rewrite Ht, Hs in *; simpl in *; done.
Qed.

Lemma isHealthyNode_conditions_spec (conditions : list NodeCondition) :
  isHealthyNode_conditions conditions = false
  ↔ ∃ condition, condition ∈ conditions ∧ readyNotTrue condition.
Proof.
  unfold readyNotTrue.
  induction conditions as [|c conditions IH]; simpl.
  - split; [done|]. intros (? & Hin & _). by apply elem_of_nil in Hin.
  - destruct (_ && _) eqn:Hc.
    + split; [|done]. intros _. exists c. split; [left|].
      apply andb_true_iff in Hc as [H1 H2]. apply String.eqb_eq in H1.
      apply negb_true_iff, String.eqb_neq in H2. done.
    + rewrite IH. split.
      * intros (c' & Hin & Hc'). exists c'. split; [by right|done].
      * intros (c' & Hin & Hc'). apply elem_of_cons in Hin as [->|Hin]; [|by exists c'].
        exfalso. destruct Hc' as [Ht Hs]. apply String.eqb_neq in Hs.
        apply String.eqb_eq in Ht. unfold NodeReady, metav1.ConditionTrue in Hc.
        by rewrite Ht, Hs in Hc.
Qed.

(** *** The loops that build records *)

Lemma foldl_snoc_map {A B} (f : A → B) (l : list A) (acc : list B) :
  foldl (λ acc x, acc ++ [f x]) acc l = acc ++ (f <$> l).
Proof.
  revert acc. induction l as [|x l IH]; intros acc; simpl.
  - by rewrite app_nil_r.
  - by rewrite IH, <- app_assoc.
Qed.

Lemma foldl_snoc_filter {A B} (skip : A → bool) (f : A → B) (l : list A) (acc : list B) :
  foldl (λ acc x, if skip x then acc else acc ++ [f x]) acc l
  = acc ++ (f <$> filter (λ x, skip x = false) l).
Proof.
  revert acc. induction l as [|x l IH]; intros acc; simpl.
  - by rewrite app_nil_r.
  - rewrite IH, filter_cons. destruct (skip x) eqn:Hs.
    + by rewrite decide_False by done.
    + rewrite decide_True by done. by rewrite fmap_cons, <- app_assoc.
Qed.

Section routines.
Context `{External} {C : Type} `{Clients C}.

Lemma appendUnhealthyPods_spec (pods : list Pod) (records : list Record) :
  appendUnhealthyPods pods records
  = records ++ (podRecord <$> filter (λ pod, isHealthyPod pod = false) pods).
Proof. apply (foldl_snoc_filter isHealthyPod podRecord). Qed.

(** Listing pods only ever adds records behind those already there. *)
Lemma gatherPodsOf_extends (namespaces : list string) : ∀ (records : list Record) (c : C),
  ∃ podRecords, (gatherPodsOf namespaces records c).1 = records ++ podRecords.
Proof.
  induction namespaces as [|ns namespaces IH]; intros records c; simpl.
  - exists []. by rewrite app_nil_r.
  - destruct (Pods_List ns c) as [[pods err] c1].
    destruct (IH (appendUnhealthyPods pods records) c1) as [podRecords Hp].
    rewrite Hp, appendUnhealthyPods_spec, <- app_assoc. eauto.
Qed.

Lemma gatherPodsOf_app (ns1 ns2 : list string) : ∀ (records : list Record) (c : C),
  gatherPodsOf (ns1 ++ ns2) records c
  = gatherPodsOf ns2 (gatherPodsOf ns1 records c).1 (gatherPodsOf ns1 records c).2.
Proof.
  induction ns1 as [|ns ns1 IH]; intros records c; simpl; [done|].
  destruct (Pods_List ns c) as [[pods err] c1]. apply IH.
Qed.

(** The loop over the operators lists pods for the namespaces of the
    unhealthy ones, and for no other. *)
Lemma gatherFailingOperators_spec (items : list ClusterOperator) :
  ∀ (records : list Record) (c : C),
  gatherFailingOperators items records c
  = gatherPodsOf
      (filter (λ item, isHealthyOperator item = false) items ≫= namespacesForOperator)
      records c.
Proof.
  induction items as [|item items IH]; intros records c; simpl; [done|].
  rewrite filter_cons. destruct (isHealthyOperator item) eqn:Hh.
  - rewrite decide_False by done. apply IH.
  - rewrite decide_True by done. rewrite bind_cons, gatherPodsOf_app.
    destruct (gatherPodsOf (namespacesForOperator item) records c) as [records1 c1].
    apply IH.
Qed.


Lemma gatherClusterOperators_listed (i : Gatherer C) (config : list ClusterOperator) (c : C) :
  ClusterOperators_List (cluster i) = ((config, None), c) →
  gatherClusterOperators i
  = let '(records, c') :=
      gatherPodsOf
        (filter (λ item, isHealthyOperator item = false) config ≫= namespacesForOperator)
        (operatorRecord <$> config) c in
    ((records, []), withCluster i c').
Proof.
  intros Hlist. unfold gatherClusterOperators. rewrite Hlist. simpl.
  change (foldl _ [] config)
    with (foldl (λ records item, records ++ [operatorRecord item]) [] config).
  rewrite (foldl_snoc_map operatorRecord), gatherFailingOperators_spec. done.
Qed.

(** A pod listing that fails is passed over: the operators are still
    returned, each of them, ahead of the pod records, and no error is. *)
Lemma pod_listing_failure_passed_over (i : Gatherer C) (config : list ClusterOperator) (c : C) :
  ClusterOperators_List (cluster i) = ((config, None), c) →
  ∃ podRecords,
    (gatherClusterOperators i).1 = ((operatorRecord <$> config) ++ podRecords, []).
Proof.
  intros Hlist. rewrite (gatherClusterOperators_listed i config c Hlist).
  destruct (gatherPodsOf_extends
              (filter (λ item, isHealthyOperator item = false) config
                 ≫= namespacesForOperator)
              (operatorRecord <$> config) c) as [podRecords Hp].
  destruct (gatherPodsOf _ _ c) as [records c1]. simpl in *. subst records.
  by exists podRecords.
Qed.

(** C5, as amended: when the operators can be listed, every one of them is
    wrapped as a record, healthy or not, in the order listed and ahead of any
    pod record; the health predicate, which finds an operator unhealthy
    exactly when it has a condition Degraded/True or Available/False, only
    picks the operators whose related namespaces have their pods listed, so
    that with healthy operators only nothing but the operator records comes
    back. *)
Theorem gatherClusterOperators_keeps_every_operator
    (i : Gatherer C) (config : list ClusterOperator) (c : C) :
  ClusterOperators_List (cluster i) = ((config, None), c) →
  (∃ podRecords,
      (gatherClusterOperators i).1 = ((operatorRecord <$> config) ++ podRecords, []))
  ∧ gatherClusterOperators i
    = (let '(records, c') :=
         gatherPodsOf
           (filter (λ item, isHealthyOperator item = false) config
              ≫= namespacesForOperator)
           (operatorRecord <$> config) c in
       ((records, []), withCluster i c'))
  ∧ (∀ operator,
       isHealthyOperator operator = false
       ↔ ∃ condition, condition ∈ co_Conditions operator
                      ∧ degradedOrUnavailable condition)
  ∧ (Forall (λ item, isHealthyOperator item = true) config →
     gatherClusterOperators i = ((operatorRecord <$> config, []), withCluster i c)).
Proof.
  intros Hlist. pose proof (gatherClusterOperators_listed i config c Hlist) as Hg.
  split_and!.
  - by apply (pod_listing_failure_passed_over i config c).
  - done.
  - intros operator. apply isHealthyOperator_conditions_spec.
  - intros Hall. rewrite Hg.
    replace (filter (λ item, isHealthyOperator item = false) config)
      with (@nil ClusterOperator); [done|].
    clear -Hall. induction Hall as [|item items Hitem _ IH]; [done|].
    rewrite filter_cons, decide_False by congruence. exact IH.
Qed.

(** The errors of the cluster-operator function are those of the call it
    opens with; what the pod listings answer has no part in them. *)
Lemma gatherClusterOperators_errors (i : Gatherer C) :
  (gatherClusterOperators i).1.2
  = match (ClusterOperators_List (cluster i)).1.2 with
    | Some err => if IsNotFound (Some err) then [] else [err]
    | None => []
    end.
Proof.
  unfold gatherClusterOperators.
  destruct (ClusterOperators_List (cluster i)) as [[config [err|]] c];
    cbn -[IsNotFound].
  - by destruct (IsNotFound (Some err)).
  - by destruct (gatherFailingOperators config _ c).
Qed.

(** C6, as amended: when the call a gather function opens with fails, and
    not with "not found", the function returns that one error and no record,
    and leaves the cached cluster version alone. The pod listings inside the
    cluster-operator function are another matter: a failure there is passed
    over, and the errors of that function are those of its opening call
    alone. *)
Theorem gather_opening_failure (n : nat) (f : Gatherer C → Gathered C)
    (i : Gatherer C) (err : error) (c : C) :
  gatherFunctions !! n = Some f →
  opening n (cluster i) = Some (Some err, c) →
  IsNotFound (Some err) = false →
  f i = (([], [err]), withCluster i c)
  ∧ ∀ i' : Gatherer C,
      (gatherClusterOperators i').1.2
      = match (ClusterOperators_List (cluster i')).1.2 with
        | Some err' => if IsNotFound (Some err') then [] else [err']
        | None => []
        end.
Proof.
  intros Hf Hopen Hnf. split; [|apply gatherClusterOperators_errors].
  do 11 (destruct n as [|n]; [
    simpl in Hf; injection Hf as <-; simpl in Hopen;
    unfold gatherClusterOperators, gatherNodes, gatherClusterVersion,
      gatherInfrastructure, gatherNetwork, gatherAuthentication, gatherFeatureGate,
      gatherOAuth, gatherIngress, gatherProxy, gatherSingleton;
    try (match type of Hopen with
         | context [let '(_, _) := ?call in _] => destruct call as [[config err'] c']
         end;
         injection Hopen as -> ->; by rewrite ?Hnf);
    try done |]).
  done.
Qed.

(** C7: a node is found unhealthy exactly when one of its conditions is of
    type Ready with a status other than True, and the node function returns
    the records of the unhealthy nodes only: Ready/True and no Ready
    condition at all are healthy and left out, Ready/False is unhealthy and
    kept. *)
Theorem isHealthyNode_ready :
  (∀ node, isHealthyNode node = false
           ↔ ∃ condition, condition ∈ node_Conditions node ∧ readyNotTrue condition)
  ∧ (∀ i : Gatherer C,
       (gatherNodes i).1.1
       = match (Nodes_List (cluster i)).1.2 with
         | None =>
             nodeRecord
               <$> filter (λ node, isHealthyNode node = false) (Nodes_List (cluster i)).1.1
         | Some _ => []
         end)
  ∧ isHealthyNode
      (nodeWith "n" [{| ncond_Type := "Ready"; ncond_Status := "True" |}]) = true
  ∧ isHealthyNode
      (nodeWith "n" [{| ncond_Type := "Ready"; ncond_Status := "False" |}]) = false
  ∧ isHealthyNode (nodeWith "n" []) = true
  ∧ isHealthyNode
      (nodeWith "n" [{| ncond_Type := "MemoryPressure"; ncond_Status := "True" |}]) = true.
Proof.
  split_and!; try done.
  - intros node. apply isHealthyNode_conditions_spec.
  - intros i. unfold gatherNodes.
    destruct (Nodes_List (cluster i)) as [[nodes [err|]] c]; simpl; [done|].
    exact (foldl_snoc_filter isHealthyNode nodeRecord nodes []).
Qed.

(** C10: the cluster-id function never returns an error and never touches
    the gatherer; with no cluster version cached it returns no record, and
    otherwise one record named ["config/id"] that marshals to the bytes of
    the cached ClusterID; and the cache is empty exactly as long as no
    version has been stored. *)
Theorem gatherClusterID_spec (i : Gatherer C) :
  (gatherClusterID i).1.2 = []
  ∧ (gatherClusterID i).2 = i
  ∧ match getClusterVersion i with
    | None => (gatherClusterID i).1.1 = []
    | Some version =>
        ∃ r, (gatherClusterID i).1.1 = [r]
             ∧ Name r = "config/id"
             ∧ ∀ ctx, ItemMarshal r ctx = (list_byte_of_string (cv_ClusterID version), None)
    end
  ∧ (∀ (c : C) (updates : list ClusterVersion),
       getClusterVersion (foldl setClusterVersion (New c) updates) = None
       ↔ updates = []).
Proof.
  unfold gatherClusterID, getClusterVersion. split_and!.
  - by destruct (lastVersion i).
  - by destruct (lastVersion i).
  - destruct (lastVersion i) as [version|]; [|done].
    eexists. split_and!; done.
  - intros c updates. split; [|by intros ->].
    destruct updates as [|version updates]; [done|]. intros Hnone. exfalso.
    revert Hnone. simpl.
    change (setClusterVersion (New c) version)
      with ({| cluster := c; lastVersion := Some version |}).
    generalize version at 1. induction updates as [|v updates IH]; intros last; simpl; [done|].
    unfold setClusterVersion at 2. simpl.
    destruct (String.eqb _ _); apply IH.
Qed.

End routines.

Section cache.
Context {C : Type}.

(** C9: whatever updates came before, an update carrying the resource
    version of the cached entry leaves the cache as it is, any other update
    (and any update of an empty cache) puts its version in the cache; only
    equality of the two resource versions is looked at, so that afterwards
    the cache always carries the resource version of the latest update, and
    the same update again changes nothing. *)
Theorem setClusterVersion_by_identity (i0 : Gatherer C)
    (updates : list ClusterVersion) (version : ClusterVersion) :
  let i := foldl setClusterVersion i0 updates in
  getClusterVersion (setClusterVersion i version)
  = match getClusterVersion i with
    | Some last =>
        if decide (cv_ResourceVersion last = cv_ResourceVersion version)
        then Some last else Some version
    | None => Some version
    end
  ∧ cluster (setClusterVersion i version) = cluster i
  ∧ cv_ResourceVersion <$> getClusterVersion (setClusterVersion i version)
    = Some (cv_ResourceVersion version)
  ∧ setClusterVersion (setClusterVersion i version) version
    = setClusterVersion i version.
Proof.
  intros i. generalize i. clear i. intros i.
  unfold getClusterVersion, setClusterVersion.
  destruct i as [c [last|]]; simpl.
  - destruct (String.eqb_spec (cv_ResourceVersion last) (cv_ResourceVersion version))
      as [Heq|Hne]; simpl.
    + rewrite decide_True by done. rewrite Heq, String.eqb_refl. by rewrite <- Heq.
    + rewrite decide_False by done. by rewrite String.eqb_refl.
  - by rewrite String.eqb_refl.
Qed.

End cache.

(** Versions arriving out of order: each differs from the one cached when
    it arrives, so each replaces it; a second copy of the cached version,
    even with other content, is dropped. *)
Example versions_out_of_order :
  let i := New tt in
  getClusterVersion
    (foldl setClusterVersion i [versionWith "2" "a"; versionWith "1" "b"; versionWith "2" "c"])
  = Some (versionWith "2" "c")
  ∧ getClusterVersion
      (foldl setClusterVersion i [versionWith "2" "a"; versionWith "2" "d"])
    = Some (versionWith "2" "a").
Proof. done. Qed.


(** A healthy operator is returned all the same. *)
Lemma healthy_operator_is_recorded :
  let operator := operatorWith "dns" [] ["openshift-dns"] in
  isHealthyOperator operator = true
  ∧ (gatherClusterOperators (New healthyCluster)).1
    = ([operatorRecord operator], []).
Proof. vm_compute. done. Qed.

Lemma gatherClusterOperators_keeps_every_operator_witness :
  let i := New podsUnlistable in
  let config := (operators podsUnlistable).1 in
  ClusterOperators_List (cluster i) = ((config, None), podsUnlistable)
  ∧ (∃ podRecords,
        (gatherClusterOperators i).1 = ((operatorRecord <$> config) ++ podRecords, []))
  ∧ gatherClusterOperators i
    = (let '(records, c') :=
         gatherPodsOf
           (filter (λ item, isHealthyOperator item = false) config
              ≫= namespacesForOperator)
           (operatorRecord <$> config) podsUnlistable in
       ((records, []), withCluster i c'))
  ∧ (∀ operator,
       isHealthyOperator operator = false
       ↔ ∃ condition, condition ∈ co_Conditions operator
                      ∧ degradedOrUnavailable condition)
  ∧ (Forall (λ item, isHealthyOperator item = true) config →
     gatherClusterOperators i
     = ((operatorRecord <$> config, []), withCluster i podsUnlistable)).
Proof.
  intros i config. split; [reflexivity|].
  apply gatherClusterOperators_keeps_every_operator. reflexivity.
Defined.

(** The pods of a degraded operator cannot be listed, for a reason other
    than "not found": the function returns the operator's record and no
    error. *)
Lemma pod_listing_failure_is_not_returned :
  let i := New podsUnlistable in
  let operator := operatorWith "dns" [{| cond_Type := "Degraded"; cond_Status := "True" |}]
                    ["openshift-dns"] in
  isHealthyOperator operator = false
  ∧ namespacesForOperator operator = ["openshift-dns"]
  ∧ (∃ err, (Pods_List "openshift-dns" (cluster i)).1.2 = Some err
            ∧ IsNotFound (Some err) = false)
  ∧ (gatherClusterOperators i).1 = ([operatorRecord operator], []).
Proof. vm_compute. split_and!; try done. by eexists. Qed.

Lemma gather_opening_failure_witness :
  let i := New unreachable in
  let err := errorString "connection refused" in
  gatherFunctions !! 1%nat = Some gatherNodes
  ∧ opening 1 (cluster i) = Some (Some err, unreachable)
  ∧ IsNotFound (Some err) = false
  ∧ gatherNodes i = (([], [err]), withCluster i unreachable)
  ∧ ∀ i' : Gatherer Sheet,
      (gatherClusterOperators i').1.2
      = match (ClusterOperators_List (cluster i')).1.2 with
        | Some err' => if IsNotFound (Some err') then [] else [err']
        | None => []
        end.
Proof.
  intros i err. split_and!; [reflexivity..| |];
    apply (gather_opening_failure 1 gatherNodes i err unreachable); reflexivity.
Defined.

(** A whole [Gather] against the first sheet, with a recorder that takes
    everything: the operator, then the report; the ten other functions find
    nothing. *)
Example Gather_healthyCluster :
  let run := Gather (New healthyCluster, start [] false) in
  resultOf run = None
  ∧ Name <$> stored run.1.2.2
    = ["config/clusteroperator/dns"; "insights-operator/gathers"]
  ∧ length (gathersOf (traceOf run)) = 11%nat.
Proof. vm_compute. done. Qed.

End GatherProofs.

Module PodProofs.
Import record configv1 corev1 clusterconfig CollectSpec ClusterSpec MoreSpec
  Scenario ClusterScenario MoreScenario GatherProofs.

Lemma terminatedNonZero_spec (t : option ContainerStateTerminated) :
  terminatedNonZero t = true ↔ ∃ t', t = Some t' ∧ ExitCode t' ≠ 0.
Proof.
  destruct t as [t|]; simpl.
  - rewrite negb_true_iff, Z.eqb_neq. split; [by exists t|]. by intros (? & [= <-] & ?).
  - split; [done|]. by intros (? & ? & _).
Qed.

Lemma isHealthyPod_statuses_spec (statuses : list ContainerStatus) :
  isHealthyPod_statuses statuses = false
  ↔ ∃ status, status ∈ statuses ∧ terminatedWithFailure status.
Proof.
  unfold terminatedWithFailure.
  induction statuses as [|s statuses IH]; simpl.
  - split; [done|]. intros (? & Hin & _). by apply elem_of_nil in Hin.
  - destruct (terminatedNonZero (LastTerminationState_Terminated s)) eqn:Hl.
    { split; [|done]. intros _. exists s. split; [left|].
      left. by apply terminatedNonZero_spec. }
    destruct (terminatedNonZero (State_Terminated s)) eqn:Hs.
    { split; [|done]. intros _. exists s. split; [left|].
      right. by apply terminatedNonZero_spec. }
    rewrite IH. split.
    + intros (s' & Hin & Hs'). exists s'. split; [by right|done].
    + intros (s' & Hin & Hs'). apply elem_of_cons in Hin as [->|Hin]; [|by exists s'].
      exfalso. destruct Hs' as [Ht|Ht]; apply terminatedNonZero_spec in Ht; congruence.
Qed.

(** X1: a pod is found unhealthy exactly when it is pending, or one of its init
    or regular containers terminated, now or the last time, with a non-zero
    exit code. *)
Theorem isHealthyPod_spec (pod : Pod) :
  isHealthyPod pod = false
  ↔ pod_Phase pod = "Pending"
    ∨ ∃ status, status ∈ pod_InitContainerStatuses pod ++ pod_ContainerStatuses pod
                ∧ terminatedWithFailure status.
Proof.
  unfold isHealthyPod, PodPending.
  destruct (String.eqb_spec (pod_Phase pod) "Pending") as [Hp|Hp].
  { split; [by left|done]. }
  destruct (isHealthyPod_statuses (pod_InitContainerStatuses pod)) eqn:Hi; simpl.
  - rewrite isHealthyPod_statuses_spec. split.
    + intros (s & Hin & Hs). right. exists s. split; [|done].
      apply elem_of_app. by right.
    + intros [?|(s & Hin & Hs)]; [done|].
      apply elem_of_app in Hin as [Hin|Hin]; [|by exists s].
      exfalso. assert (isHealthyPod_statuses (pod_InitContainerStatuses pod) = false).
      { apply isHealthyPod_statuses_spec. by exists s. }
      congruence.
  - split; [|done]. intros _. right.
    apply isHealthyPod_statuses_spec in Hi as (s & Hin & Hs).
    exists s. split; [|done]. apply elem_of_app. by left.
Qed.

Lemma namespaces_foldl (refs : list ObjectReference) (ns : list string) :
  foldl (λ ns ref,
      if String.eqb (ref_Resource ref) "namespaces" then ns ++ [ref_Name ref] else ns)
    ns refs
  = ns ++ (ref_Name <$> filter (λ ref, ref_Resource ref = "namespaces") refs).
Proof.
  revert ns. induction refs as [|ref refs IH]; intros ns; simpl.
  - by rewrite app_nil_r.
  - rewrite filter_cons. destruct (String.eqb_spec (ref_Resource ref) "namespaces").
    + rewrite decide_True by done. rewrite IH, fmap_cons, <- app_assoc. done.
    + rewrite decide_False by done. apply IH.
Qed.

(** X2: the namespaces of an operator are the names of its related objects of
    resource ["namespaces"], in the order of the related objects. *)
Theorem namespacesForOperator_spec (operator : ClusterOperator) :
  namespacesForOperator operator
  = ref_Name <$> filter (λ ref, ref_Resource ref = "namespaces")
                   (co_RelatedObjects operator).
Proof. apply (namespaces_foldl (co_RelatedObjects operator) []). Qed.

Section pods.
Context `{External} {C : Type} `{Clients C}.

Lemma gatherPodsOf_unhealthy (namespaces : list string) :
  ∀ (records : list Record) (c : C),
  ∃ pods, Forall (λ pod, isHealthyPod pod = false) pods
          ∧ (gatherPodsOf namespaces records c).1 = records ++ (podRecord <$> pods).
Proof.
  induction namespaces as [|ns namespaces IH]; intros records c; simpl.
  - exists []. split; [constructor|]. by rewrite app_nil_r.
  - destruct (Pods_List ns c) as [[pods err] c1].
    destruct (IH (appendUnhealthyPods pods records) c1) as (pods' & Hall & Hp).
    exists (filter (λ pod, isHealthyPod pod = false) pods ++ pods'). split.
    + apply Forall_app. split; [|done]. apply Forall_forall.
      intros pod Hin. by apply list_elem_of_filter in Hin as [? _].
    + rewrite Hp, appendUnhealthyPods_spec, fmap_app, <- app_assoc. done.
Qed.

(** X3: when the operators can be listed, what the cluster-operator function
    returns behind the operators' records are records of pods, each named
    [config/pod/<namespace>/<name>], and each of a pod found unhealthy. *)
Theorem gatherClusterOperators_pods (i : Gatherer C) (config : list ClusterOperator) (c : C) :
  ClusterOperators_List (cluster i) = ((config, None), c) →
  ∃ pods,
    Forall (λ pod, isHealthyPod pod = false) pods
    ∧ (gatherClusterOperators i).1.1
      = (operatorRecord <$> config) ++ (podRecord <$> pods)
    ∧ Name <$> (gatherClusterOperators i).1.1
      = ((λ item, "config/clusteroperator/" +:+ co_Name item) <$> config)
        ++ ((λ pod, "config/pod/" +:+ pod_Namespace pod +:+ "/" +:+ pod_Name pod) <$> pods).
Proof.
  intros Hlist. rewrite (gatherClusterOperators_listed i config c Hlist).
  destruct (gatherPodsOf_unhealthy
              (filter (λ item, isHealthyOperator item = false) config
                 ≫= namespacesForOperator)
              (operatorRecord <$> config) c) as (pods & Hall & Hp).
  destruct (gatherPodsOf _ _ c) as [records c1]. simpl in *. subst records.
  exists pods. split_and!; [done..|].
  rewrite fmap_app, <- !list_fmap_compose. done.
Qed.

End pods.

Lemma gatherClusterOperators_pods_witness :
  let i := New degradedCluster in
  let config := (operators degradedCluster).1 in
  ClusterOperators_List (cluster i) = ((config, None), degradedCluster)
  ∧ ∃ pods,
      Forall (λ pod, isHealthyPod pod = false) pods
      ∧ (gatherClusterOperators i).1.1
        = (operatorRecord <$> config) ++ (podRecord <$> pods)
      ∧ Name <$> (gatherClusterOperators i).1.1
        = ((λ item, "config/clusteroperator/" +:+ co_Name item) <$> config)
          ++ ((λ pod, "config/pod/" +:+ pod_Namespace pod +:+ "/" +:+ pod_Name pod)
                <$> pods).
Proof.
  intros i config. split; [reflexivity|].
  apply (gatherClusterOperators_pods i config degradedCluster). reflexivity.
Defined.

(** The pending pod and the one that exited with 137 are kept, the one that
    exited with 0 is not. *)
Example degradedCluster_records :
  Name <$> (gatherClusterOperators (New degradedCluster)).1.1
  = ["config/clusteroperator/dns"; "config/pod/openshift-dns/dns-1";
     "config/pod/openshift-dns/dns-3"].
Proof. vm_compute. done. Qed.

End PodProofs.

Module RoutineProofs.
Import record configv1 corev1 clusterconfig CollectSpec ClusterSpec MoreSpec
  Scenario ClusterScenario MoreScenario GatherProofs PodProofs.

Section routines.
Context `{External} {C : Type} `{Clients C}.

(** X4: "Not found" from the call a gather function opens with is no failure:
    the function returns no record and no error and leaves the cached
    cluster version alone. The node function is the exception: it returns
    "not found" as any other error. *)
Theorem gather_opening_not_found (n : nat) (f : Gatherer C → Gathered C)
    (i : Gatherer C) (err : error) (c : C) :
  gatherFunctions !! n = Some f →
  opening n (cluster i) = Some (Some err, c) →
  IsNotFound (Some err) = true →
  f i = (([], if decide (n = 1%nat) then [err] else []), withCluster i c).
Proof.
  intros Hf Hopen Hnf.
  do 11 (destruct n as [|n]; [
    simpl in Hf; injection Hf as <-; simpl in Hopen;
    unfold gatherClusterOperators, gatherNodes, gatherClusterVersion,
      gatherInfrastructure, gatherNetwork, gatherAuthentication, gatherFeatureGate,
      gatherOAuth, gatherIngress, gatherProxy, gatherSingleton;
    try (match type of Hopen with
         | context [let '(_, _) := ?call in _] => destruct call as [[config err'] c']
         end;
         injection Hopen as -> ->; by rewrite ?Hnf);
    try done |]).
  done.
Qed.

(** X5: only the cluster-version function writes the cached cluster version:
    every other gather function leaves it as it found it, whatever the
    cluster answers. *)
Theorem gather_keeps_lastVersion (n : nat) (f : Gatherer C → Gathered C) (i : Gatherer C) :
  gatherFunctions !! n = Some f →
  n ≠ 2%nat →
  lastVersion (f i).2 = lastVersion i.
Proof.
  intros Hf Hn.
  do 11 (destruct n as [|n]; [
    simpl in Hf; injection Hf as <-;
    unfold gatherClusterOperators, gatherNodes, gatherClusterID,
      gatherInfrastructure, gatherNetwork, gatherAuthentication, gatherFeatureGate,
      gatherOAuth, gatherIngress, gatherProxy, gatherSingleton, getClusterVersion;
    try (exfalso; apply Hn; reflexivity);
    try done;
    try (match goal with
         | |- context [let '(_, _) := ?call in _] => destruct call as [[config [err|]] c']
         end;
         cbn -[IsNotFound];
         try destruct (IsNotFound (Some err));
         try (match goal with
              | |- context [gatherFailingOperators ?a ?b ?c] =>
                  destruct (gatherFailingOperators a b c)
              end);
         try done);
    try (by destruct (lastVersion i) eqn:Hlast) |]).
  done.
Qed.

(** X6: when the cluster version can be fetched, the cluster-version function
    returns the one record [config/version] and no error; afterwards the
    cache holds a version with the resource version of the one fetched (the
    one fetched itself, unless a version with that resource version was
    cached already, which then stays), and the cluster-id function returns
    the one record [config/id] made of the cached version's ClusterID. *)
Theorem gatherClusterVersion_then_ClusterID (i : Gatherer C) (config : ClusterVersion) (c : C) :
  ClusterVersions_Get "version" (cluster i) = ((config, None), c) →
  (gatherClusterVersion i).1
  = ([mkRecord "config/version" {| cva_ClusterVersion := config |}], [])
  ∧ cluster (gatherClusterVersion i).2 = c
  ∧ ∃ cached,
      getClusterVersion (gatherClusterVersion i).2 = Some cached
      ∧ cv_ResourceVersion cached = cv_ResourceVersion config
      ∧ cached = match getClusterVersion i with
                 | Some last =>
                     if decide (cv_ResourceVersion last = cv_ResourceVersion config)
                     then last else config
                 | None => config
                 end
      ∧ (gatherClusterID (gatherClusterVersion i).2).1
        = ([mkRecord "config/id" {| raw_string := cv_ClusterID cached |}], []).
Proof.
  intros Hget. unfold gatherClusterVersion. rewrite Hget.
  destruct i as [c0 [last|]];
    unfold gatherClusterID, getClusterVersion, setClusterVersion, withCluster; simpl.
  - destruct (String.eqb_spec (cv_ResourceVersion last) (cv_ResourceVersion config))
      as [Heq|Hne]; simpl.
    + split_and!; [done..|]. exists last. rewrite decide_True by done. done.
    + split_and!; [done..|]. exists config. rewrite decide_False by done. done.
  - split_and!; [done..|]. by exists config.
Qed.

End routines.

Lemma gather_opening_not_found_witness :
  let i := New bare in
  gatherFunctions !! 0%nat = Some gatherClusterOperators
  ∧ opening 0 (cluster i) = Some (Some notFound, bare)
  ∧ IsNotFound (Some notFound) = true
  ∧ gatherClusterOperators i = (([], []), withCluster i bare).
Proof.
  intros i. split_and!; [reflexivity..|].
  apply (gather_opening_not_found 0 gatherClusterOperators i notFound bare); reflexivity.
Defined.

Lemma gather_keeps_lastVersion_witness :
  let i := setClusterVersion (New degradedCluster) (versionWith "40" "cluster-a") in
  gatherFunctions !! 0%nat = Some gatherClusterOperators
  ∧ 0%nat ≠ 2%nat
  ∧ lastVersion (gatherClusterOperators i).2 = lastVersion i.
Proof.
  intros i. split_and!; [reflexivity|lia|].
  apply (gather_keeps_lastVersion 0); [reflexivity|lia].
Defined.

Lemma gatherClusterVersion_then_ClusterID_witness :
  let i := New degradedCluster in
  let config := versionWith "41" "cluster-a" in
  ClusterVersions_Get "version" (cluster i) = ((config, None), degradedCluster)
  ∧ (gatherClusterVersion i).1
    = ([mkRecord "config/version" {| cva_ClusterVersion := config |}], [])
  ∧ cluster (gatherClusterVersion i).2 = degradedCluster
  ∧ ∃ cached,
      getClusterVersion (gatherClusterVersion i).2 = Some cached
      ∧ cv_ResourceVersion cached = cv_ResourceVersion config
      ∧ cached = match getClusterVersion i with
                 | Some last =>
                     if decide (cv_ResourceVersion last = cv_ResourceVersion config)
                     then last else config
                 | None => config
                 end
      ∧ (gatherClusterID (gatherClusterVersion i).2).1
        = ([mkRecord "config/id" {| raw_string := cv_ClusterID cached |}], []).
Proof.
  intros i config. split; [reflexivity|].
  apply (gatherClusterVersion_then_ClusterID i config degradedCluster). reflexivity.
Defined.

End RoutineProofs.

Module MoreCollectProofs.
Import record CollectSpec MoreSpec StringsProofs UniqueProofs CollectProofs Scenario.

Lemma aggregate_None (errors : list string) : aggregate errors = None ↔ errors = [].
Proof.
  unfold aggregate. destruct errors as [|e errors]; [done|].
  by rewrite decide_True by (simpl; lia).
Qed.

Lemma recordFailures_nil (records : list Record) (results : list (option error)) :
  recordFailures records results = [] ↔ Forall wentWell (forwardEvents records results).
Proof.
  unfold recordFailures, forwardEvents.
  revert results. induction records as [|r records IH]; intros [|res results]; simpl;
    try (split; [constructor|done]).
  rewrite Forall_cons, <- IH. destruct res as [err|]; simpl.
  - split; [done|]. by intros [? _].
  - split; [done|]. by intros [_ ?].
Qed.

Lemma roundErrors_nil (rd : Round) :
  rd_check rd = None →
  roundErrors rd = [] ↔ Forall wentWell (roundEvents rd).
Proof.
  intros Hcheck. unfold roundErrors, roundEvents.
  rewrite Forall_cons, Forall_app, Forall_singleton, <- recordFailures_nil. simpl.
  rewrite Hcheck. split.
  - intros [He Hr]%app_eq_nil. split_and!; [|done..]. by apply fmap_nil_inv in He.
  - intros (-> & -> & _). done.
Qed.

Lemma roundsErrors_nil (rounds : list Round) :
  Forall (λ rd, rd_check rd = None) rounds →
  rounds ≫= roundErrors = [] ↔ Forall wentWell (rounds ≫= roundEvents).
Proof.
  induction 1 as [|rd rounds Hrd _ IH]; [done|].
  rewrite !bind_cons, Forall_app, <- IH, <- (roundErrors_nil rd Hrd).
  split; [by intros [??]%app_eq_nil|by intros [-> ->]].
Qed.

Section more.
Context {W : Type} {E : Env W} `{JSON}.

(** X9: [Collect] returns [nil] exactly when every call of the run went well: no
    gather function returned an error, the recorder took every record and
    the report, and no context check found an error. *)
Theorem Collect_nil_iff (bulkFns : list (BulkFn W)) (w : W) :
  resultOf (Collect bulkFns w) = None ↔ Forall wentWell (traceOf (Collect bulkFns w)).
Proof.
  destruct (Collect_run bulkFns w) as (rounds & Hcompl & Hnames & [Hstop|Hfin]).
  - destruct Hstop as (pre & rd & err & -> & Hpre & Hrd & -> & ->).
    split; [done|]. rewrite bind_snoc, Forall_app. intros [_ Hlast].
    unfold roundEvents in Hlast. rewrite Forall_cons, Forall_app, Forall_singleton in Hlast.
    destruct Hlast as (_ & _ & Hcheck). simpl in Hcheck. congruence.
  - destruct Hfin as (_ & Hchecks & report & res & _ & -> & ->).
    rewrite aggregate_None, Forall_app, Forall_singleton, <- roundsErrors_nil by done.
    simpl. split.
    + intros [-> Hres]%app_eq_nil. split; [done|]. by destruct res.
    + intros [-> ->]. done.
Qed.

Lemma Truncate_Millisecond (d : Z) : Truncate d Millisecond = d - Z.rem d 1000000.
Proof. reflexivity. Qed.

Lemma Sub_range (t u : Z) : minDuration ≤ Sub t u ≤ maxDuration.
Proof. unfold Sub, minDuration, maxDuration. repeat case_match; lia. Qed.

Lemma Truncate_Sub_whole (now start : Z) :
  wholeMilliseconds (Truncate (Sub now start) Millisecond).
Proof.
  unfold wholeMilliseconds. rewrite Truncate_Millisecond.
  pose proof (Sub_range now start) as Hd. generalize dependent (Sub now start).
  intros d Hd. unfold Millisecond, minDuration, maxDuration in *. split.
  - exists (Z.quot d 1000000). pose proof (Z.quot_rem' d 1000000). lia.
  - destruct (Z.le_gt_cases 0 d) as [Hpos|Hneg].
    + pose proof (Z.rem_bound_pos d 1000000 Hpos). lia.
    + pose proof (Z.rem_opp_l d 1000000 ltac:(lia)).
      pose proof (Z.rem_bound_pos (- d) 1000000). lia.
Qed.

Lemma collectLoop_elapsed (bulkFns : list (BulkFn W)) :
  ∀ (errors : list string) (gatherReport : list gatherStatusReport) (w : W),
  match resultOf (collectLoop bulkFns errors gatherReport w) with
  | inl _ => True
  | inr (_, gatherReport') =>
      ∃ entries, gatherReport' = gatherReport ++ entries
                 ∧ Forall (λ e, wholeMilliseconds (gsr_Elapsed e)) entries
  end.
Proof.
  induction bulkFns as [|bulkFn bulkFns IH]; intros errors gatherReport w.
  - simpl. exists []. by rewrite app_nil_r.
  - cbn [collectLoop]. unfold mbind, M_bind, Now, call, ctxErr.
    destruct (time_Now w) as [start w1].
    destruct (fn_body bulkFn w1) as [[records errs] w2].
    destruct (time_Now w2) as [now w3].
    destruct (forwardRecords records _ w3) as [[errors1 w4] tr1].
    destruct (ctx_Err w4) as [[err|] w5]; [done|].
    match goal with
    | |- context [collectLoop bulkFns ?e ?g w5] =>
        pose proof (IH e g w5) as HIH;
        destruct (collectLoop bulkFns e g w5) as [[r w6] tr]
    end.
    unfold resultOf in *. simpl in *.
    destruct r as [err|[errors' gatherReport']]; [done|].
    destruct HIH as (entries & -> & Hall).
    eexists (_ :: entries). rewrite <- app_assoc. split; [done|].
    constructor; [|done]. apply Truncate_Sub_whole.
Qed.

(** X10: in a run that no context check cuts short, every entry of the report
    handed to the recorder has an elapsed time that is a whole number of
    milliseconds and fits [int64]. *)
Theorem Collect_report_elapsed (bulkFns : list (BulkFn W)) (w : W) :
  cancelled (traceOf (Collect bulkFns w)) = None →
  ∃ tr report res,
    traceOf (Collect bulkFns w) = tr ++ [EvRecord (gatherReportRecord report) res]
    ∧ length report = length bulkFns
    ∧ Forall (λ e, wholeMilliseconds (gsr_Elapsed e)) report.
Proof.
  intros Hc.
  destruct (collectLoop_run bulkFns [] [] w) as (rounds & Htr & Hcompl & Hnames & Hout).
  pose proof (collectLoop_elapsed bulkFns [] [] w) as Hel.
  revert Hc. unfold Collect, mbind, M_bind.
  destruct (collectLoop bulkFns [] [] w) as [[r w1] tr].
  unfold resultOf, traceOf in *. simpl in *. subst tr.
  destruct r as [err|[errors gatherReport]]; simpl in *.
  - destruct Hout as (pre & rd & -> & Hpre & Hlast).
    rewrite app_nil_r, (cancelled_stopped pre rd err) by done. done.
  - intros _. destruct Hout as (Hn & _ & _ & entries & -> & Hentries).
    destruct Hel as (entries' & [= <-] & Hall).
    unfold recordGatherReport, recorderRecord.
    destruct (recorder_Record (gatherReportRecord entries) w1) as [res w2]. simpl.
    exists (rounds ≫= roundEvents), entries, res. rewrite ?app_nil_r.
    split_and!; [done| |done]. by rewrite <- (Forall2_length _ _ _ Hentries).
Qed.

(** The loop over a list of gather functions followed by another list is the
    loop over the first list, and then, unless a context check stopped it,
    the loop over the second list carried on from the accumulated messages
    and report. *)
Lemma collectLoop_app (fns1 fns2 : list (BulkFn W)) :
  ∀ (errors : list string) (gatherReport : list gatherStatusReport) (w : W),
  collectLoop (fns1 ++ fns2) errors gatherReport w
  = (r ← collectLoop fns1 errors gatherReport;
     match r with
     | inl err => mret (inl err)
     | inr (errors, gatherReport) => collectLoop fns2 errors gatherReport
     end) w.
Proof.
  induction fns1 as [|bulkFn fns1 IH]; intros errors gatherReport w.
  - simpl. unfold mbind, M_bind. simpl.
    by destruct (collectLoop fns2 errors gatherReport w) as [[r w1] tr].
  - cbn [app collectLoop]. unfold mbind, M_bind, Now, call, ctxErr.
    destruct (time_Now w) as [start w1].
    destruct (fn_body bulkFn w1) as [[records errs] w2].
    destruct (time_Now w2) as [now w3].
    destruct (forwardRecords records _ w3) as [[errors1 w4] tr1].
    destruct (ctx_Err w4) as [[err|] w5]; simpl.
    + by rewrite !app_nil_r.
    + rewrite IH. unfold mbind, M_bind.
      destruct (collectLoop fns1 _ _ w5) as [[r w6] tr2].
      destruct r as [err|[errors' gatherReport']]; simpl.
      * by rewrite !app_nil_r.
      * destruct (collectLoop fns2 errors' gatherReport' w6) as [[r' w7] tr3].
        by rewrite <- !app_assoc.
Qed.

(** X11: gather functions that come after the point where a run was cancelled
    play no part in it: if the run over a list is cut short by a context
    check, the run over that list followed by any other functions is the
    same run, with the same result, the same calls and the same final
    world. *)
Theorem Collect_cancelled_prefix (fns1 fns2 : list (BulkFn W)) (w : W) (err : error) :
  cancelled (traceOf (Collect fns1 w)) = Some err →
  Collect (fns1 ++ fns2) w = Collect fns1 w.
Proof.
  intros Hc.
  destruct (collectLoop_run fns1 [] [] w) as (rounds & Htr & _ & _ & Hout).
  revert Hc. unfold Collect, mbind, M_bind. rewrite collectLoop_app.
  unfold mbind, M_bind.
  destruct (collectLoop fns1 [] [] w) as [[r w1] tr].
  unfold resultOf, traceOf in *. simpl in Htr, Hout. subst tr.
  destruct r as [err'|[errors gatherReport]]; simpl.
  - intros _. by rewrite ?app_nil_r.
  - destruct Hout as (_ & Hchecks & _).
    unfold recordGatherReport, recorderRecord.
    destruct (recorder_Record (gatherReportRecord gatherReport) w1) as [res w2]. simpl.
    rewrite cancelled_app, cancelled_rounds_None by done. done.
Qed.

End more.

Lemma Collect_report_elapsed_witness :
  let bulkFns := [twoRecordsFn; failingFn] in
  let run := Collect bulkFns (start [] false) in
  cancelled (traceOf run) = None
  ∧ ∃ tr report res,
      traceOf run = tr ++ [EvRecord (gatherReportRecord report) res]
      ∧ length report = length bulkFns
      ∧ Forall (λ e, wholeMilliseconds (gsr_Elapsed e)) report.
Proof.
  intros bulkFns run. split; [vm_compute; reflexivity|].
  apply Collect_report_elapsed. vm_compute; reflexivity.
Defined.

Lemma Collect_cancelled_prefix_witness :
  let fns1 := [twoRecordsFn] in
  let w := start [Some Canceled] false in
  cancelled (traceOf (Collect fns1 w)) = Some Canceled
  ∧ Collect (fns1 ++ [failingFn; quietFn]) w = Collect fns1 w.
Proof.
  intros fns1 w. split; [vm_compute; reflexivity|].
  apply (Collect_cancelled_prefix fns1 [failingFn; quietFn] w Canceled).
  vm_compute; reflexivity.
Defined.

End MoreCollectProofs.

Module NamingProofs.
Import record configv1 corev1 clusterconfig CollectSpec ClusterSpec MoreSpec
  CollectProofs Scenario ClusterScenario MoreScenario GatherProofs PodProofs.

Section loop.
Context {W : Type} {E : Env W} `{JSON}.
Variable P : Record → Prop.




End loop.

Section names.
Context `{External} {C : Type} `{Clients C}.

Lemma gatherPodsOf_underConfig (namespaces : list string) :
  ∀ (records : list Record) (c : C),
  Forall underConfig records → Forall underConfig (gatherPodsOf namespaces records c).1.
Proof.
  intros records c Hrec.
  destruct (gatherPodsOf_unhealthy namespaces records c) as (pods & _ & ->).
  apply Forall_app. split; [done|]. apply Forall_fmap, Forall_forall. by intros pod _.
Qed.

Lemma gatherClusterOperators_underConfig (i : Gatherer C) :
  Forall underConfig (gatherClusterOperators i).1.1.
Proof.
  unfold gatherClusterOperators.
  destruct (ClusterOperators_List (cluster i)) as [[config [err|]] c];
    cbn -[IsNotFound gatherFailingOperators].
  - destruct (IsNotFound (Some err)); constructor.
  - rewrite gatherFailingOperators_spec.
    match goal with
    | |- context [gatherPodsOf ?ns ?recs ?c] =>
        pose proof (gatherPodsOf_underConfig ns recs c) as Hp;
        destruct (gatherPodsOf ns recs c) as [records c1]
    end.
    simpl in *. apply Hp.
    change (foldl _ [] config)
      with (foldl (λ records item, records ++ [operatorRecord item]) [] config).
    rewrite (foldl_snoc_map operatorRecord). simpl.
    apply Forall_fmap, Forall_forall. by intros item _.
Qed.

Lemma gatherNodes_underConfig (i : Gatherer C) :
  Forall underConfig (gatherNodes i).1.1.
Proof.
  unfold gatherNodes.
  destruct (Nodes_List (cluster i)) as [[nodes [err|]] c]; simpl; [constructor|].
  change (foldl _ [] nodes)
    with (foldl (λ records node,
                   if isHealthyNode node then records else records ++ [nodeRecord node])
            [] nodes).
  rewrite (foldl_snoc_filter isHealthyNode nodeRecord nodes []). simpl.
  apply Forall_fmap, Forall_forall. by intros node _.
Qed.

Lemma gatherClusterVersion_underConfig (i : Gatherer C) :
  Forall underConfig (gatherClusterVersion i).1.1.
Proof.
  unfold gatherClusterVersion.
  destruct (ClusterVersions_Get "version" (cluster i)) as [[config [err|]] c];
    cbn -[IsNotFound].
  - destruct (IsNotFound (Some err)); constructor.
  - by repeat constructor.
Qed.

Lemma gatherClusterID_underConfig (i : Gatherer C) :
  Forall underConfig (gatherClusterID i).1.1.
Proof.
  unfold gatherClusterID, getClusterVersion.
  destruct (lastVersion i); by repeat constructor.
Qed.

Lemma gatherSingleton_underConfig {T A} `{Marshalable A}
    (get : string → C → (T * option error) * C) (name : string) (wrap : T → A)
    (i : Gatherer C) :
  String.prefix "config/" name = true →
  Forall underConfig (gatherSingleton get name wrap i).1.1.
Proof.
  intros Hname. unfold gatherSingleton.
  destruct (get "cluster" (cluster i)) as [[config [err|]] c]; cbn -[IsNotFound].
  - destruct (IsNotFound (Some err)); constructor.
  - by repeat constructor.
Qed.

Lemma gatherFunctions_underConfig (n : nat) (f : Gatherer C → Gathered C) (i : Gatherer C) :
  gatherFunctions !! n = Some f →
  Forall underConfig (f i).1.1.
Proof.
  intros Hf.
  do 11 (destruct n as [|n]; [
    simpl in Hf; injection Hf as <-;
    first [ apply gatherClusterOperators_underConfig
          | apply gatherNodes_underConfig
          | apply gatherClusterVersion_underConfig
          | apply gatherClusterID_underConfig
          | by apply gatherSingleton_underConfig ] |]).
  done.
Qed.

(** X7: every record a gather function returns has a name under ["config/"],
    whatever the cluster answers. *)
Theorem gather_names_under_config (n : nat) (f : Gatherer C → Gathered C) (i : Gatherer C) :
  gatherFunctions !! n = Some f →
  Forall underConfig (f i).1.1.
Proof. apply gatherFunctions_underConfig. Qed.

End names.

Section gather.
Context `{External} `{JSON} {C : Type} `{Clients C} {E : Type} `{Env E}.


End gather.

Lemma gather_names_under_config_witness :
  let i := New degradedCluster in
  gatherFunctions !! 0%nat = Some gatherClusterOperators
  ∧ Forall underConfig (gatherClusterOperators i).1.1.
Proof.
  intros i. split; [reflexivity|].
  apply (gather_names_under_config 0). reflexivity.
Defined.

End NamingProofs.

Module MoreStringProofs.
Import record configv1 corev1 clusterconfig CollectSpec ClusterSpec MoreSpec
  UniqueProofs AnonymizeProofs GatherProofs ClusterScenario.

Lemma noAdjacentDup_cons (p q : string) (l : list string) :
  noAdjacentDup (p :: q :: l) ↔ p ≠ q ∧ noAdjacentDup (q :: l).
Proof.
  unfold noAdjacentDup. split.
  - intros Hno. split.
    + intros ->. by apply (Hno 0%nat q).
    + intros i x Hi. apply (Hno (S i) x Hi).
  - intros [Hpq Hno] [|i] x Hi.
    + injection Hi as <-. simpl. by intros [= ->].
    + apply (Hno i x Hi).
Qed.

Lemma noAdjacentDup_singleton (p : string) : noAdjacentDup [p].
Proof. intros [|i] x Hi; [done|]. by destruct i. Qed.

Lemma dropRun_sublist (l : list string) : ∀ p, dropRun p l `sublist_of` l.
Proof.
  induction l as [|y l IH]; intros p; simpl; [done|].
  case_decide; [apply sublist_cons, IH|apply sublist_skip, IH].
Qed.

Lemma dropRun_noAdjacentDup (l : list string) : ∀ p, noAdjacentDup (p :: dropRun p l).
Proof.
  induction l as [|y l IH]; intros p; simpl.
  - apply noAdjacentDup_singleton.
  - case_decide as Hy; [apply IH|].
    apply noAdjacentDup_cons. split; [done|apply IH].
Qed.

Lemma dropRun_fixpoint (l : list string) : ∀ p,
  noAdjacentDup (p :: l) → dropRun p l = l.
Proof.
  induction l as [|y l IH]; intros p Hno; simpl; [done|].
  apply noAdjacentDup_cons in Hno as [Hpy Hno].
  rewrite decide_False by done. f_equal. by apply IH.
Qed.

Lemma adjacentDedup_fixpoint (l : list string) :
  noAdjacentDup l → adjacentDedup l = l.
Proof.
  destruct l as [|p l]; [done|]. intros Hno. simpl. f_equal. by apply dropRun_fixpoint.
Qed.

Lemma adjacentDedup_noAdjacentDup (l : list string) : noAdjacentDup (adjacentDedup l).
Proof.
  destruct l as [|p l]; simpl; [by intros i x ?|]. apply dropRun_noAdjacentDup.
Qed.

(** X12: whatever the order of its argument, [uniqueStrings] returns a
    subsequence of it that begins as it does, is empty only if the argument
    is, and has no two equal neighbours; running it again changes nothing. *)
Theorem uniqueStrings_subsequence (arr : list string) :
  uniqueStrings arr `sublist_of` arr
  ∧ head (uniqueStrings arr) = head arr
  ∧ (uniqueStrings arr = [] ↔ arr = [])
  ∧ noAdjacentDup (uniqueStrings arr)
  ∧ uniqueStrings (uniqueStrings arr) = uniqueStrings arr.
Proof.
  rewrite !uniqueStrings_adjacentDedup. split_and!.
  - destruct arr as [|p l]; simpl; [done|]. apply sublist_skip, dropRun_sublist.
  - by destruct arr.
  - by destruct arr.
  - apply adjacentDedup_noAdjacentDup.
  - apply adjacentDedup_fixpoint, adjacentDedup_noAdjacentDup.
Qed.

(** X13: a slice without equal neighbours comes back as it is: equal strings that
    are not next to each other are both kept, as in ["a"; "b"; "a"]. *)
Theorem uniqueStrings_keeps_separated (arr : list string) :
  noAdjacentDup arr → uniqueStrings arr = arr.
Proof. rewrite uniqueStrings_adjacentDedup. apply adjacentDedup_fixpoint. Qed.

Lemma uniqueStrings_keeps_separated_witness :
  noAdjacentDup ["a"; "b"; "a"] ∧ uniqueStrings ["a"; "b"; "a"] = ["a"; "b"; "a"].
Proof.
  assert (Hno : noAdjacentDup ["a"; "b"; "a"]).
  { apply noAdjacentDup_cons. split; [done|].
    apply noAdjacentDup_cons. split; [done|]. apply noAdjacentDup_singleton. }
  split; [exact Hno|]. exact (uniqueStrings_keeps_separated _ Hno).
Defined.

(** *** Comma-separated values *)

Lemma commaFree_cons (c : ascii) (s : string) :
  commaFree (String c s) ↔ c ≠ ","%char ∧ commaFree s.
Proof.
  unfold commaFree. split.
  - intros Hc. split.
    + intros ->. by apply (Hc 0%nat).
    + intros n. apply (Hc (S n)).
  - intros [Hc Hs] [|n]; simpl; [by intros [= ->]|apply Hs].
Qed.

Lemma strings_Split_comma_nonempty (s : string) : strings_Split_comma s ≠ [].
Proof.
  destruct s as [|c s]; simpl; [done|].
  destruct (Ascii.eqb c ","); [done|]. by destruct (strings_Split_comma s).
Qed.

Lemma strings_Join_cons (x y : string) (l : list string) (sep : string) :
  strings_Join (x :: y :: l) sep = x +:+ sep +:+ strings_Join (y :: l) sep.
Proof. reflexivity. Qed.

Lemma strings_Split_comma_cons (c : ascii) (s : string) :
  strings_Split_comma (String c s)
  = if Ascii.eqb c ","%char then "" :: strings_Split_comma s
    else match strings_Split_comma s with
         | hd :: tl => String c hd :: tl
         | [] => [String c ""]
         end.
Proof. reflexivity. Qed.

(** Joining what [strings_Split_comma] returns gives the string back. *)
Lemma strings_Join_Split (s : string) :
  strings_Join (strings_Split_comma s) "," = s.
Proof.
  induction s as [|c s IH]; [done|]. rewrite strings_Split_comma_cons.
  pose proof (strings_Split_comma_nonempty s) as Hne.
  destruct (strings_Split_comma s) as [|y l]; [done|].
  destruct (Ascii.eqb_spec c ",") as [->|Hc].
  - rewrite strings_Join_cons, IH. done.
  - rewrite <- IH. destruct l; reflexivity.
Qed.

Lemma strings_Split_comma_app (x rest : string) :
  commaFree x →
  strings_Split_comma (x +:+ "," +:+ rest) = x :: strings_Split_comma rest.
Proof.
  induction x as [|c x IH]; intros Hx; [done|].
  apply commaFree_cons in Hx as [Hc Hx].
  change (String c x +:+ "," +:+ rest) with (String c (x +:+ "," +:+ rest)).
  rewrite strings_Split_comma_cons, (IH Hx).
  by destruct (Ascii.eqb_spec c ",").
Qed.

Lemma strings_Split_comma_free (x : string) :
  commaFree x → strings_Split_comma x = [x].
Proof.
  induction x as [|c x IH]; intros Hx; [done|].
  apply commaFree_cons in Hx as [Hc Hx].
  rewrite strings_Split_comma_cons, (IH Hx).
  by destruct (Ascii.eqb_spec c ",").
Qed.

(** Splitting what was joined from comma-free strings gives them back. *)
Lemma strings_Split_Join (l : list string) :
  l ≠ [] → Forall commaFree l →
  strings_Split_comma (strings_Join l ",") = l.
Proof.
  induction l as [|x l IH]; intros Hne Hall; [done|].
  apply Forall_cons in Hall as [Hx Hall].
  destruct l as [|y l].
  - by apply strings_Split_comma_free.
  - rewrite strings_Join_cons, strings_Split_comma_app by done.
    f_equal. by apply IH.
Qed.

Section anonymize.
Context `{External}.

Lemma anonymizeURLSlice_fmap (in_ : list string) :
  anonymizeURLSlice in_ = urlhash_HashURL <$> in_.
Proof. apply (foldl_snoc_map urlhash_HashURL in_ []). Qed.

(** X14: provided the hash never yields a comma, [anonymizeURLCSV] works field by
    field: the fields of its result are the hashes of the fields of its
    argument, as many and in the same order; the empty string, which has the
    one empty field, becomes the hash of the empty string. *)
Theorem anonymizeURLCSV_fields (s : string) :
  (∀ s', commaFree (urlhash_HashURL s')) →
  strings_Split_comma (anonymizeURLCSV s) = urlhash_HashURL <$> strings_Split_comma s
  ∧ length (strings_Split_comma (anonymizeURLCSV s)) = length (strings_Split_comma s)
  ∧ anonymizeURLCSV "" = urlhash_HashURL "".
Proof.
  intros Hfree. unfold anonymizeURLCSV.
  assert (Hsplit : strings_Split_comma
            (strings_Join (anonymizeURLSlice (strings_Split_comma s)) ",")
          = urlhash_HashURL <$> strings_Split_comma s).
  { rewrite anonymizeURLSlice_fmap. apply strings_Split_Join.
    - intros Hnil%fmap_nil_inv. by apply strings_Split_comma_nonempty in Hnil.
    - apply Forall_fmap, Forall_forall. intros x _. apply Hfree. }
  split_and!; [done| |done]. by rewrite Hsplit, length_fmap.
Qed.

Lemma anonymizeString_again (s : string) :
  anonymizeString (anonymizeString s) = anonymizeString s.
Proof. unfold anonymizeString. by rewrite strings_Repeat_length. Qed.

(** X15: anonymizing a node a second time leaves the annotations, the labels,
    the system identifiers, the name and the conditions as the first time
    left them, and the images dropped, but hashes the addresses once more. *)
Theorem anonymizeNode_again (node : Node) :
  node_Annotations (anonymizeNode (anonymizeNode node))
  = node_Annotations (anonymizeNode node)
  ∧ node_Labels (anonymizeNode (anonymizeNode node)) = node_Labels (anonymizeNode node)
  ∧ node_NodeInfo (anonymizeNode (anonymizeNode node))
    = node_NodeInfo (anonymizeNode node)
  ∧ node_Images (anonymizeNode (anonymizeNode node)) = []
  ∧ node_Name (anonymizeNode (anonymizeNode node)) = node_Name node
  ∧ node_Conditions (anonymizeNode (anonymizeNode node)) = node_Conditions node
  ∧ node_Addresses (anonymizeNode (anonymizeNode node))
    = (λ a, {| addr_Type := addr_Type a;
               addr_Address := urlhash_HashURL (urlhash_HashURL (addr_Address a)) |})
        <$> node_Addresses node.
Proof.
  split_and!; try done.
  - apply map_eq. intros k. simpl. rewrite !anonymizeAnnotations_lookup.
    destruct (node_Annotations node !! k); simpl; [|done].
    by destruct (isProductNamespacedKey k).
  - apply map_eq. intros k. simpl. rewrite !anonymizeLabels_lookup.
    destruct (node_Labels node !! k); simpl; [|done].
    destruct (isProductNamespacedKey k); [done|]. by rewrite anonymizeString_again.
  - simpl. by rewrite !anonymizeString_again.
  - simpl. by rewrite <- list_fmap_compose.
Qed.

End anonymize.

Lemma anonymizeURLCSV_fields_witness :
  (∀ s', commaFree (urlhash_HashURL s'))
  ∧ strings_Split_comma (anonymizeURLCSV "a.example.com,,10.0.0.1")
    = urlhash_HashURL <$> strings_Split_comma "a.example.com,,10.0.0.1"
  ∧ length (strings_Split_comma (anonymizeURLCSV "a.example.com,,10.0.0.1"))
    = length (strings_Split_comma "a.example.com,,10.0.0.1")
  ∧ anonymizeURLCSV "" = urlhash_HashURL "".
Proof.
  assert (Hfree : ∀ s', commaFree (urlhash_HashURL s')).
  { intros s' n. simpl. destruct (String.eqb s' "").
    - by destruct n.
    - do 7 (destruct n as [|n]; [done|]). done. }
  split; [exact Hfree|]. exact (anonymizeURLCSV_fields "a.example.com,,10.0.0.1" Hfree).
Defined.

End MoreStringProofs.
